(** * rain: metainfo, public torrent API and the one-shot downloader

    A shallow embedding of the parts of the rain BitTorrent client that its
    specification talks about:

    - [Metainfo]: the [Info] dictionary ([NewInfo], [PieceHash], [GetFiles]),
      with SHA-1 and a bencode reader written out so that the functions can be
      evaluated on concrete byte strings;
    - [Public]: the public methods of [Torrent] (torrent/public.go), whose
      bodies are [select] statements over channels;
    - [Downloader]: the event loop of [handleDownload] and the name of the
      resume file;
    - [TorrentFile]: [New], which reads a torrent file;
    - [Logger], [Cli], [LogFormat]: the logger package, the hooks around a
      command and the format of a log line. *)

From Stdlib.Strings Require Import String Ascii Byte.
From Stdlib Require Import ZArith Bool Lia List.
Import ListNotations.

#[local] Open Scope Z_scope.

(** ** Machine integers and byte slices *)

Module Mach.

(** [uint32(x)]: conversion to an unsigned 32-bit integer truncates. *)
Definition wrap_u32 (z : Z) : Z := z mod 2 ^ 32.

(** [int64] arithmetic wraps around in two's complement. *)
Definition wrap_i64 (z : Z) : Z := (z + 2 ^ 63) mod 2 ^ 64 - 2 ^ 63.

Definition in_u32 (z : Z) : Prop := 0 <= z < 2 ^ 32.
Definition in_i64 (z : Z) : Prop := - 2 ^ 63 <= z < 2 ^ 63.

Definition Z_of_byte (b : byte) : Z := Z.of_N (Byte.to_N b).

Definition byte_of_Z (z : Z) : byte :=
  match Byte.of_N (Z.to_N (z mod 256)) with
  | Some b => b
  | None => x00
  end.

(** The result of a Go expression that may panic. *)
Inductive outcome (A : Type) : Type :=
| Return (a : A)
| Panic (msg : string).
Arguments Return {A} a.
Arguments Panic {A} msg.

(** The result of a Go function returning [(T, error)]. *)
Inductive result (A : Type) : Type :=
| Ok (a : A)
| Err (msg : string).
Arguments Ok {A} a.
Arguments Err {A} msg.

(** [s[lo:hi]] on a slice whose capacity is its length: a run-time panic
    unless [lo <= hi <= len(s)]. *)
Definition slice (s : list byte) (lo hi : Z) : outcome (list byte) :=
  if (lo <=? hi) && (hi <=? Z.of_nat (length s))
  then Return (firstn (Z.to_nat (hi - lo)) (skipn (Z.to_nat lo) s))
  else Panic "slice bounds out of range".

(** The builtin [copy(dst, src)] on a destination of fixed length. *)
Definition copy (dst src : list byte) : list byte :=
  firstn (length dst) src ++ skipn (length src) dst.

End Mach.

(** ** SHA-1 (crypto/sha1) *)

Module SHA1.
Import Mach.

Definition Size : Z := 20.

Definition w32 (z : Z) : Z := z mod 2 ^ 32.

Definition rotl (n x : Z) : Z :=
  w32 (Z.lor (Z.shiftl x n) (Z.shiftr x (32 - n))).

Definition lnot32 (x : Z) : Z := Z.lxor x 0xFFFFFFFF.

Record state : Type := mkState { h0 : Z; h1 : Z; h2 : Z; h3 : Z; h4 : Z }.

Definition init : state :=
  mkState 0x67452301 0xEFCDAB89 0x98BADCFE 0x10325476 0xC3D2E1F0.

(** Big-endian bytes of a word of [n] bytes. *)
Fixpoint be_bytes (n : nat) (z : Z) : list byte :=
  match n with
  | O => []
  | S k => byte_of_Z (Z.shiftr z (8 * Z.of_nat k)) :: be_bytes k z
  end.

Fixpoint be_word (bs : list byte) (acc : Z) : Z :=
  match bs with
  | [] => acc
  | b :: r => be_word r (acc * 256 + Z_of_byte b)
  end.

(** Message padding: a one bit, zeros up to 56 mod 64, then the bit length
    as a 64-bit big-endian integer. *)
Definition pad (msg : list byte) : list byte :=
  let len := Z.of_nat (length msg) in
  let zeros := Z.to_nat ((55 - len) mod 64) in
  msg ++ x80 :: repeat x00 zeros ++ be_bytes 8 (8 * len).

(** The sixteen message words of a block. *)
Fixpoint words (n : nat) (blk : list byte) : list Z :=
  match n with
  | O => []
  | S k => be_word (firstn 4 blk) 0 :: words k (skipn 4 blk)
  end.

(** The message schedule, most recent word first. *)
Fixpoint schedule (n : nat) (rev_w : list Z) : list Z :=
  match n with
  | O => rev_w
  | S k =>
      let x := Z.lxor (Z.lxor (nth 2 rev_w 0) (nth 7 rev_w 0))
                      (Z.lxor (nth 13 rev_w 0) (nth 15 rev_w 0)) in
      schedule k (rotl 1 x :: rev_w)
  end.

Definition f (t : nat) (b c d : Z) : Z :=
  if (t <? 20)%nat then Z.lor (Z.land b c) (Z.land (lnot32 b) d)
  else if (t <? 40)%nat then Z.lxor (Z.lxor b c) d
  else if (t <? 60)%nat then
    Z.lor (Z.lor (Z.land b c) (Z.land b d)) (Z.land c d)
  else Z.lxor (Z.lxor b c) d.

Definition K (t : nat) : Z :=
  if (t <? 20)%nat then 0x5A827999
  else if (t <? 40)%nat then 0x6ED9EBA1
  else if (t <? 60)%nat then 0x8F1BBCDC
  else 0xCA62C1D6.

Fixpoint rounds (t : nat) (ws : list Z) (s : state) : state :=
  match ws with
  | [] => s
  | w :: r =>
      let tmp := w32 (rotl 5 (h0 s) + f t (h1 s) (h2 s) (h3 s)
                      + h4 s + w + K t) in
      rounds (S t) r (mkState tmp (h0 s) (rotl 30 (h1 s)) (h2 s) (h3 s))
  end.

Definition block (s : state) (blk : list byte) : state :=
  let ws := rev (schedule 64 (rev (words 16 blk))) in
  let r := rounds 0 ws s in
  mkState (w32 (h0 s + h0 r)) (w32 (h1 s + h1 r)) (w32 (h2 s + h2 r))
          (w32 (h3 s + h3 r)) (w32 (h4 s + h4 r)).

Fixpoint blocks (n : nat) (s : state) (data : list byte) : state :=
  match n with
  | O => s
  | S k => blocks k (block s (firstn 64 data)) (skipn 64 data)
  end.

Definition digest (s : state) : list byte :=
  be_bytes 4 (h0 s) ++ be_bytes 4 (h1 s) ++ be_bytes 4 (h2 s)
    ++ be_bytes 4 (h3 s) ++ be_bytes 4 (h4 s).

(** [h := sha1.New(); h.Write(b); h.Sum(nil)]. *)
Definition Sum (b : list byte) : list byte :=
  let p := pad b in
  digest (blocks (length p / 64) init p).

End SHA1.

(** ** Bencode (github.com/zeebo/bencode)

    The decoder is an external library.  [NewInfo] below is parametrised by
    it; this module is a reader for the part of bencode that an info
    dictionary uses, so that [NewInfo] can be run on concrete byte strings. *)

Module Bencode.
Import Mach.

#[local] Set Warnings "-register-all".

Inductive value : Type :=
| Int (z : Z)
| Str (s : list byte)
| List (l : list value)
| Dict (d : list (list byte * value)).

Definition digit (b : byte) : option Z :=
  let z := Z_of_byte b in
  if (48 <=? z) && (z <=? 57) then Some (z - 48) else None.

(** Reads a maximal run of decimal digits: its value, the number of digits
    read and the rest of the input. *)
Fixpoint read_digits (l : list byte) (acc : Z) (n : nat)
  : Z * nat * list byte :=
  match l with
  | [] => (acc, n, [])
  | b :: r =>
      match digit b with
      | Some d => read_digits r (acc * 10 + d) (S n)
      | None => (acc, n, l)
      end
  end.

Definition read_int (l : list byte) : option (value * list byte) :=
  let '(neg, l1) :=
    match l with
    | b :: r => if Byte.eqb b "-"%byte then (true, r) else (false, l)
    | [] => (false, l)
    end in
  match read_digits l1 0 0 with
  | (z, S _, e :: r) =>
      if Byte.eqb e "e"%byte
      then Some (Int (if neg : bool then - z else z), r) else None
  | _ => None
  end.

Definition read_str (l : list byte) : option (list byte * list byte) :=
  match read_digits l 0 0 with
  | (n, S _, c :: r) =>
      if Byte.eqb c ":"%byte && (n <=? Z.of_nat (length r))
      then Some (firstn (Z.to_nat n) r, skipn (Z.to_nat n) r) else None
  | _ => None
  end.

Fixpoint parse (fuel : nat) (l : list byte) : option (value * list byte) :=
  match fuel with
  | O => None
  | S k =>
      match l with
      | [] => None
      | b :: r =>
          if Byte.eqb b "i"%byte then read_int r
          else if Byte.eqb b "l"%byte then
            match parse_list k r with
            | Some (vs, r') => Some (List vs, r')
            | None => None
            end
          else if Byte.eqb b "d"%byte then
            match parse_dict k r with
            | Some (kvs, r') => Some (Dict kvs, r')
            | None => None
            end
          else
            match read_str l with
            | Some (s, r') => Some (Str s, r')
            | None => None
            end
      end
  end
with parse_list (fuel : nat) (l : list byte)
  : option (list value * list byte) :=
  match fuel with
  | O => None
  | S k =>
      match l with
      | [] => None
      | b :: r =>
          if Byte.eqb b "e"%byte then Some ([], r)
          else
            match parse k l with
            | Some (v, r1) =>
                match parse_list k r1 with
                | Some (vs, r2) => Some (v :: vs, r2)
                | None => None
                end
            | None => None
            end
      end
  end
with parse_dict (fuel : nat) (l : list byte)
  : option (list (list byte * value) * list byte) :=
  match fuel with
  | O => None
  | S k =>
      match l with
      | [] => None
      | b :: r =>
          if Byte.eqb b "e"%byte then Some ([], r)
          else
            match read_str l with
            | Some (key, r1) =>
                match parse k r1 with
                | Some (v, r2) =>
                    match parse_dict k r2 with
                    | Some (kvs, r3) => Some ((key, v) :: kvs, r3)
                    | None => None
                    end
                | None => None
                end
            | None => None
            end
      end
  end.

(** One value read from the front of the input. *)
Definition read (b : list byte) : option value :=
  match parse (2 * length b + 2) b with
  | Some (v, _) => Some v
  | None => None
  end.

Fixpoint lookup (key : string) (d : list (list byte * value))
  : option value :=
  match d with
  | [] => None
  | (k, v) :: r =>
      if String.eqb (string_of_list_byte k) key then Some v else lookup key r
  end.

(** Field readers: an absent key leaves the zero value of the field, a value
    of the wrong kind or out of the field's range is an error. *)
Definition get_int (lo hi : Z) (key : string)
  (d : list (list byte * value)) : option Z :=
  match lookup key d with
  | None => Some 0
  | Some (Int z) => if (lo <=? z) && (z <=? hi) then Some z else None
  | Some _ => None
  end.

Definition get_bytes (key : string) (d : list (list byte * value))
  : option (list byte) :=
  match lookup key d with
  | None => Some []
  | Some (Str s) => Some s
  | Some _ => None
  end.

Fixpoint strings (vs : list value) : option (list string) :=
  match vs with
  | [] => Some []
  | Str s :: r =>
      match strings r with
      | Some ss => Some (string_of_list_byte s :: ss)
      | None => None
      end
  | _ :: _ => None
  end.

Definition get_strings (key : string) (d : list (list byte * value))
  : option (list string) :=
  match lookup key d with
  | None => Some []
  | Some (List vs) => strings vs
  | Some _ => None
  end.

End Bencode.

(** ** The info dictionary (metainfo) *)

Module Metainfo.
Import Mach.

(** [type fileDict struct]. *)
Record fileDict : Type := mkFile {
  file_Length : Z;            (* int64 *)
  file_Path : list string;
  file_Md5sum : string
}.

(** The fields of [Info] that carry a bencode key; the decoder fills these
    and leaves the fields tagged [bencode:"-"] alone. *)
Record InfoDict : Type := mkInfoDict {
  dict_PieceLength : Z;       (* uint32, "piece length" *)
  dict_Pieces : list byte;    (* "pieces" *)
  dict_Private : Z;           (* byte, "private" *)
  dict_Name : string;         (* "name" *)
  dict_Length : Z;            (* int64, "length" *)
  dict_Md5sum : string;       (* "md5sum" *)
  dict_Files : list fileDict  (* "files" *)
}.

(** [type Info struct]. *)
Record Info : Type := mkInfo {
  PieceLength : Z;
  Pieces : list byte;
  Private : Z;
  Name : string;
  Length : Z;
  Md5sum : string;
  Files : list fileDict;
  Raw : list byte;
  (* calculated fields *)
  Hash : list byte;           (* protocol.InfoHash, a [20]byte *)
  TotalLength : Z;            (* int64 *)
  NumPieces : Z;              (* uint32 *)
  MultiFile : bool
}.

(** [for _, f := range i.Files { i.TotalLength += f.Length }]. *)
Definition add_lengths (files : list fileDict) (total : Z) : Z :=
  fold_left (fun acc f => wrap_i64 (acc + file_Length f)) files total.

Section WithDecoder.

(** [bencode.NewDecoder(r).Decode(&i)]. *)
Variable Decode : list byte -> result InfoDict.

Definition NewInfo (b : list byte) : result Info :=
  match Decode b with
  | Err e => Err e
  | Ok d =>
      let raw := b in
      let hash := copy (repeat x00 20) (SHA1.Sum b) in
      let multiFile := negb (length (dict_Files d) =? 0)%nat in
      let numPieces :=
        wrap_u32 (Z.of_nat (length (dict_Pieces d))) / SHA1.Size in
      let totalLength :=
        if negb multiFile then dict_Length d
        else add_lengths (dict_Files d) 0 in
      Ok (mkInfo (dict_PieceLength d) (dict_Pieces d) (dict_Private d)
                 (dict_Name d) (dict_Length d) (dict_Md5sum d)
                 (dict_Files d) raw hash totalLength numPieces multiFile)
  end.

End WithDecoder.

(** [func (i *Info) PieceHash(index uint32) []byte]. *)
Definition PieceHash (i : Info) (index : Z) : outcome (list byte) :=
  if index >=? NumPieces i then Panic "piece index out of range"
  else
    let start := wrap_u32 (index * SHA1.Size) in
    let end_ := wrap_u32 (start + SHA1.Size) in
    slice (Pieces i) start end_.

(** [func (i *Info) GetFiles() []fileDict]. *)
Definition GetFiles (i : Info) : list fileDict :=
  if MultiFile i then Files i
  else [mkFile (Length i) [Name i] (Md5sum i)].

(** *** Reading an info dictionary with the bencode reader *)

Definition to_string (o : option (list byte)) : option string :=
  match o with
  | Some s => Some (string_of_list_byte s)
  | None => None
  end.

Definition file_of (v : Bencode.value) : option fileDict :=
  match v with
  | Bencode.Dict d =>
      match Bencode.get_int (- 2 ^ 63) (2 ^ 63 - 1) "length" d,
            Bencode.get_strings "path" d,
            to_string (Bencode.get_bytes "md5sum" d) with
      | Some len, Some path, Some md5 => Some (mkFile len path md5)
      | _, _, _ => None
      end
  | _ => None
  end.

Fixpoint files_of (vs : list Bencode.value) : option (list fileDict) :=
  match vs with
  | [] => Some []
  | v :: r =>
      match file_of v, files_of r with
      | Some f, Some fs => Some (f :: fs)
      | _, _ => None
      end
  end.

Definition get_files (d : list (list byte * Bencode.value))
  : option (list fileDict) :=
  match Bencode.lookup "files" d with
  | None => Some []
  | Some (Bencode.List vs) => files_of vs
  | Some _ => None
  end.

Definition BencodeDecode (b : list byte) : result InfoDict :=
  match Bencode.read b with
  | Some (Bencode.Dict d) =>
      match Bencode.get_int 0 (2 ^ 32 - 1) "piece length" d,
            Bencode.get_bytes "pieces" d,
            Bencode.get_int 0 255 "private" d,
            to_string (Bencode.get_bytes "name" d),
            Bencode.get_int (- 2 ^ 63) (2 ^ 63 - 1) "length" d,
            to_string (Bencode.get_bytes "md5sum" d),
            get_files d with
      | Some pl, Some ps, Some pr, Some nm, Some len, Some md5, Some fs =>
          Ok (mkInfoDict pl ps pr nm len md5 fs)
      | _, _, _, _, _, _, _ => Err "bencode: cannot unmarshal"
      end
  | Some _ => Err "bencode: not a dictionary"
  | None => Err "bencode: syntax error"
  end.

(** *** Reading an [Info] *)

Definition ceil_div (a b : Z) : Z := (a + b - 1) / b.

Definition sum_lengths (fs : list fileDict) : Z :=
  fold_right (fun f acc => file_Length f + acc) 0 fs.

(** The digest that the piece table holds at [index]. *)
Definition digest_at (i : Info) (index : Z) : list byte :=
  firstn 20 (skipn (Z.to_nat (20 * index)) (Pieces i)).

(** What [NewInfo] leaves true of the fields it computes. *)
Definition computed (b : list byte) (i : Info) : Prop :=
  Raw i = b
  /\ Hash i = copy (repeat x00 20) (SHA1.Sum b)
  /\ MultiFile i = negb (length (Files i) =? 0)%nat
  /\ NumPieces i = wrap_u32 (Z.of_nat (length (Pieces i))) / 20
  /\ TotalLength i =
       if MultiFile i then add_lengths (Files i) 0 else Length i.

(** *** Info dictionaries to run [NewInfo] on *)

Definition sample : list byte :=
  list_byte_of_string
    "d6:lengthi100e4:name1:a12:piece lengthi10e6:pieces20:01234567890123456789e".

Definition ragged : list byte :=
  list_byte_of_string
    "d6:lengthi100e4:name1:a12:piece lengthi10e6:pieces25:0123456789012345678901234e".

Definition huge : list byte :=
  list_byte_of_string
    "d5:filesld6:lengthi9223372036854775807e4:pathl1:aeed6:lengthi1e4:pathl1:beee4:name1:d12:piece lengthi16384e6:pieces0:e".

End Metainfo.

(** ** Channels and [select] *)

Module Chan.

(** What a [select] case needs to know about a channel. *)
Record chan : Type := mkChan {
  cap : nat;          (* buffer capacity, 0 for make(chan T) *)
  queued : nat;       (* values in the buffer *)
  closed : bool;
  receivers : nat;    (* goroutines waiting to receive *)
  senders : nat       (* goroutines waiting to send *)
}.

(** Channel references; the nil channel is [None] where a reference can be
    nil. *)
Definition ref : Type := nat.
Definition heap : Type := ref -> chan.

Definition update (h : heap) (r : ref) (c : chan) : heap :=
  fun r' => if Nat.eqb r' r then c else h r'.

(** A send can proceed when a receiver waits or the buffer has room; on a
    closed channel it proceeds by panicking. *)
Definition can_send (c : chan) : bool :=
  closed c || (0 <? receivers c)%nat || (queued c <? cap c)%nat.

(** A receive can proceed when a value is buffered, a sender waits, or the
    channel is closed. *)
Definition can_recv (c : chan) : bool :=
  closed c || (0 <? queued c)%nat || (0 <? senders c)%nat.

Definition after_send (c : chan) : chan :=
  if (0 <? receivers c)%nat
  then mkChan (cap c) (queued c) (closed c) (pred (receivers c)) (senders c)
  else mkChan (cap c) (S (queued c)) (closed c) (receivers c) (senders c).

Definition after_recv (c : chan) : chan :=
  if (0 <? queued c)%nat
  then mkChan (cap c) (pred (queued c)) (closed c) (receivers c) (senders c)
  else if (0 <? senders c)%nat
  then mkChan (cap c) (queued c) (closed c) (receivers c) (pred (senders c))
  else c.

(** A receive on a possibly nil reference: a nil channel is never ready. *)
Definition can_recv_ref (h : heap) (r : option ref) : bool :=
  match r with
  | None => false
  | Some x => can_recv (h x)
  end.

(** How a call ends: blocked in a [select] with no ready case, a run-time
    panic, or a return with the heap it leaves, the command channels it sent
    on, and its result. *)
Inductive exec (A : Type) : Type :=
| Blocked
| Panicked (msg : string)
| Finished (h : heap) (sent : list ref) (ret : A).
Arguments Blocked {A}.
Arguments Panicked {A} msg.
Arguments Finished {A} h sent ret.

Record case_ (A : Type) : Type := mkCase {
  ready : bool;
  body : list (exec A)
}.
Arguments mkCase {A} ready body.
Arguments ready {A} c.
Arguments body {A} c.

(** [case ch <- v: k]. *)
Definition send_case {A} (h : heap) (r : ref)
  (k : heap -> list (exec A)) : case_ A :=
  mkCase (can_send (h r))
         (if closed (h r) then [Panicked "send on closed channel"]
          else k (update h r (after_send (h r)))).

(** [case <-ch: k]. *)
Definition recv_case {A} (h : heap) (r : ref)
  (k : heap -> list (exec A)) : case_ A :=
  mkCase (can_recv (h r)) (k (update h r (after_recv (h r)))).

(** [select]: any ready case may run; with none ready the goroutine blocks.
    The result lists every way the statement can go. *)
Definition select {A} (cases : list (case_ A)) : list (exec A) :=
  match filter ready cases with
  | [] => [Blocked]
  | rs => flat_map body rs
  end.

(** Sequencing of two steps of one call. *)
Definition bind {A B} (xs : list (exec A))
  (k : heap -> list ref -> A -> list (exec B)) : list (exec B) :=
  flat_map (fun x =>
    match x with
    | Blocked => [Blocked]
    | Panicked m => [Panicked m]
    | Finished h sent a => k h sent a
    end) xs.

End Chan.

(** ** torrent/public.go *)

Module Public.
Import Chan.

(** The channel fields of [Torrent] that the public methods use. *)
Record Torrent : Type := mkTorrent {
  startCommandC : ref;
  stopCommandC : ref;
  closeC : ref;
  closedC : ref;
  completeC : ref;
  notifyErrorCommandC : ref;
  statsCommandC : ref
}.

(** Modelled from the spec: [type Stats struct] is declared outside the
    sources; these are the counters of the snapshot of section 3.  The zero
    value is the one [var stats Stats] declares. *)
Record Stats : Type := mkStats {
  BytesDownloaded : Z;
  BytesUploaded : Z;
  BytesLeft : Z;
  Peers : Z;
  PiecesComplete : Z;
  PiecesTotal : Z
}.
Definition zero_Stats : Stats := mkStats 0 0 0 0 0 0.

(** The shape shared by [Start], [Stop] and [Close]:
    [select { case cmdC <- struct{}{}: case <-t.closedC: }]. *)
Definition command (cmdC : ref) (t : Torrent) (h : heap)
  : list (exec unit) :=
  select
    [ send_case h cmdC (fun h' => [Finished h' [cmdC] tt]);
      recv_case h (closedC t) (fun h' => [Finished h' [] tt]) ].

Definition Start (t : Torrent) (h : heap) : list (exec unit) :=
  command (startCommandC t) t h.

Definition Stop (t : Torrent) (h : heap) : list (exec unit) :=
  command (stopCommandC t) t h.

Definition Close (t : Torrent) (h : heap) : list (exec unit) :=
  command (closeC t) t h.

Definition NotifyComplete (t : Torrent) : ref := completeC t.

(** [reply] is what the engine sends back on [cmd.errCC] once it has taken
    the command: a channel reference (possibly nil), or nothing at all. *)
Definition NotifyError (reply : option (option ref)) (t : Torrent)
  (h : heap) : list (exec (option ref)) :=
  select
    [ send_case h (notifyErrorCommandC t) (fun h' =>
        match reply with
        | Some errC => [Finished h' [notifyErrorCommandC t] errC]
        | None => [Blocked]
        end);
      recv_case h (closedC t) (fun h' => [Finished h' [] None]) ].

(** [func (t *Torrent) Stats() Stats], named [Stats_] beside the type.
    [answer] is what the engine puts into [req.Response] once it has taken
    the request, if anything.  Both selects wait on [t.closeC]. *)
Definition Stats_ (answer : option Stats) (t : Torrent) (h : heap)
  : list (exec Stats) :=
  let stats := zero_Stats in
  bind
    (select
       [ send_case h (statsCommandC t) (fun h' =>
           [Finished h' [statsCommandC t] true]);
         recv_case h (closeC t) (fun h' => [Finished h' [] false]) ])
    (fun h1 sent delivered =>
       select
         [ mkCase (delivered && match answer with Some _ => true
                                | None => false end)
                  [Finished h1 sent
                     match answer with Some s => s | None => stats end];
           recv_case h1 (closeC t) (fun h2 => [Finished h2 sent stats]) ]).

(** A sequence of calls to [Start], [Stop] and [Close] by one goroutine. *)
Inductive call : Type := CallStart | CallStop | CallClose.

Definition do_call (c : call) (t : Torrent) (h : heap)
  : list (exec unit) :=
  match c with
  | CallStart => Start t h
  | CallStop => Stop t h
  | CallClose => Close t h
  end.

Fixpoint do_calls (cs : list call) (t : Torrent) (h : heap)
  (sent : list ref) : list (exec unit) :=
  match cs with
  | [] => [Finished h sent tt]
  | c :: r =>
      bind (do_call c t h)
           (fun h' sent' _ => do_calls r t h' (sent ++ sent'))
  end.

End Public.

(** ** The controller's completion signal *)

Module Engine.
Import Chan Public.

#[local] Open Scope nat_scope.

(** Modelled from the spec: the controller's bookkeeping of verified pieces
    and of the completion signal (sections 3, 4.I and 5); the controller's
    event loop is not among the sources.  The state keeps the bitfield, a
    set over [0, N), and what has happened to the channel that
    [NotifyComplete] returns. *)
Record state : Type := mkEngine {
  torrent : Torrent;
  chans : heap;
  have : list bool;       (* the bitfield *)
  closes : nat;           (* executions of close(t.completeC) *)
  panicked : bool
}.

(** Modelled from the spec: the messages of section 4.I that the
    controller takes from its queues, as far as pieces are concerned: a
    piece hash-matched and written, a piece that failed its hash, the Start
    and Stop commands and the resume timer. *)
Inductive event : Type :=
| PieceVerified (i : nat)
| PieceFailed (i : nat)
| StartCommand
| StopCommand
| ResumeTick.

(** Modelled from the spec: the bitfield is full when every index of
    [0, N) is in it (100% of the pieces). *)
Definition full (bits : list bool) : bool := forallb (fun b => b) bits.

(** Modelled from the spec: [set(i)] of the Bitfield (section 4.A); an
    index outside [0, N) sets nothing. *)
Fixpoint set_bit (i : nat) (bits : list bool) : list bool :=
  match bits, i with
  | [], _ => []
  | _ :: r, O => true :: r
  | b :: r, S j => b :: set_bit j r
  end.

(** Modelled from the spec: the signal becoming ready is
    [close(t.completeC)] (the comment on [NotifyComplete] says the channel
    is closed); in Go, closing a channel that is already closed panics. *)
Definition close_chan (s : state) (r : ref) : state :=
  let c := chans s r in
  if closed c
  then mkEngine (torrent s) (chans s) (have s) (closes s) true
  else mkEngine (torrent s)
         (update (chans s) r
            (mkChan (cap c) (queued c) true (receivers c) (senders c)))
         (have s) (S (closes s)) (panicked s).

(** Modelled from the spec: one message handled by the controller
    (sections 3 and 5).  A piece becomes Present only after its bytes
    hash-match, at most once per index; a failed hash leaves it Missing;
    the bitfield is updated first, and the completion signal fires when the
    bitfield reaches full.  Start, Stop and the resume timer leave the
    bitfield alone. *)
Definition step (s : state) (e : event) : state :=
  match e with
  | PieceVerified i =>
      if nth i (have s) true then s   (* out of range, or already Present *)
      else
        let bits := set_bit i (have s) in
        let s' := mkEngine (torrent s) (chans s) bits (closes s)
                           (panicked s) in
        if full bits then close_chan s' (completeC (torrent s)) else s'
  | PieceFailed _ | StartCommand | StopCommand | ResumeTick => s
  end.

(** Modelled from the spec: the Closed state of the controller (sections
    4.I and 5).  Close cancels all goroutines, so the event loop no longer
    receives on a command channel, and no operation on a command channel
    can proceed; [closedC], which is only ever closed, is closed. *)
Definition quiet (c : chan) : bool := negb (can_send c) && negb (can_recv c).

Definition is_closed (t : Torrent) (h : heap) : bool :=
  closed (h (closedC t))
  && (queued (h (closedC t)) =? 0)%nat
  && (senders (h (closedC t)) =? 0)%nat
  && quiet (h (startCommandC t))
  && quiet (h (stopCommandC t))
  && quiet (h (closeC t))
  && quiet (h (notifyErrorCommandC t))
  && quiet (h (statsCommandC t)).

(** Modelled from the spec: the controller of a torrent of [N] pieces as
    it starts, with no piece Present.  A torrent with no piece at all is at
    100% from the start, so its signal fires at once. *)
Definition init (t : Torrent) (h : heap) (N : nat) : state :=
  let s := mkEngine t h (repeat false N) 0 false in
  if full (have s) then close_chan s (completeC t) else s.

(** Modelled from the spec: the controller handles its messages one after
    the other, in a single loop (section 4.I). *)
Definition run (s : state) (es : list event) : state := fold_left step es s.

(** What a sequence of messages says by itself, apart from any state: the
    indices below [N] that it reports verified. *)
Definition verifies (i : nat) (e : event) : bool :=
  match e with
  | PieceVerified j => j =? i
  | PieceFailed _ | StartCommand | StopCommand | ResumeTick => false
  end.

Definition verified (es : list event) (i : nat) : bool :=
  existsb (verifies i) es.

Definition bits (N : nat) (es : list event) : list bool :=
  map (verified es) (seq 0 N).

(** Every piece of the torrent has been verified: the torrent has reached
    100%. *)
Definition all_verified (N : nat) (es : list event) : bool :=
  forallb (verified es) (seq 0 N).

(** Whether a receive on the signal returned by [NotifyComplete] can
    proceed. *)
Definition signal_ready (s : state) : bool :=
  can_recv (chans s (NotifyComplete (torrent s))).

(** What every reachable state of the controller satisfies: the torrent's
    channel fields are never reassigned, nothing is ever sent on the
    completion channel, it is closed exactly when the bitfield is full, and
    it has been closed once if so and never otherwise. *)
Definition inv (t : Torrent) (s : state) : Prop :=
  torrent s = t
  /\ queued (chans s (completeC t)) = 0
  /\ senders (chans s (completeC t)) = 0
  /\ closed (chans s (completeC t)) = full (have s)
  /\ closes s = (if full (have s) then 1 else 0)
  /\ panicked s = false.

(** A torrent whose channels are seven distinct references, and the heap
    its controller leaves behind when closed. *)
Definition torrent7 : Torrent := mkTorrent 1 2 3 4 5 6 7.

Definition closed_heap : heap :=
  fun r => if r =? 4 then mkChan 0 0 true 0 0 else mkChan 0 0 false 0 0.

(** The heap of a fresh torrent whose controller is receiving commands. *)
Definition live_heap : heap :=
  fun r => if (r =? 4)%nat || (r =? 5)%nat then mkChan 0 0 false 0 0
           else mkChan 0 0 false 1 0.

End Engine.

(** ** The one-shot downloader (the [download] command) *)

Module Downloader.

#[local] Open Scope string_scope.

(** The case that a round of the [select] in [handleDownload] takes; for the
    third case, the value received from [t.NotifyError()] (an [error], which
    may be nil). *)
Inductive event : Type :=
| Complete
| Signal
| Error (err : option string).

(** What [handleDownload] meets outside itself: the command line, the
    results of the calls it makes, and the case taken by each round of its
    loop. *)
Record world : Type := mkWorld {
  path : string;                    (* c.Args().Get(0) *)
  seed : bool;                      (* c.Bool("seed") *)
  storage_err : option string;      (* filestorage.New *)
  open_err : option string;         (* os.Open *)
  torrent_err : option string;      (* torrent.New, torrent.NewMagnet *)
  Name : string;                    (* t.Name() *)
  InfoHash : string;                (* t.InfoHash() *)
  resume_err : option string;       (* torrentresume.New *)
  set_resume_err : option string;   (* t.SetResume *)
  events : nat -> event
}.

Inductive ending : Type :=
| Returns (err : option string)
| Fatal (msg : string)              (* log.Fatal *)
| Running.

Record run : Type := mkRun {
  resume_file : option string;      (* the argument of torrentresume.New *)
  started : bool;                   (* t.Start() was called *)
  stops : nat;                      (* calls of t.Stop() *)
  deferred_close : bool;            (* the deferred t.Close() has run *)
  final : ending
}.

(** The argument of [torrentresume.New]. *)
Definition resume_name (name infohash : string) : string :=
  name ++ "." ++ infohash ++ ".resume".

(** [for { select { ... } }], round [k] onwards, for at most [fuel] rounds.
    A round that never gets past its select is the end of the rounds. *)
Fixpoint loop (seed : bool) (events : nat -> event) (fuel k stops : nat)
  : nat * ending :=
  match fuel with
  | O => (stops, Running)
  | S f =>
      match events k with
      | Complete =>
          if negb seed then loop seed events f (S k) (S stops)
          else loop seed events f (S k) stops
      | Signal => loop seed events f (S k) (S stops)
      | Error err => (stops, Returns err)
      end
  end.

Definition is_magnet (p : string) : bool := String.prefix "magnet:" p.

(** A [return] runs the deferred [t.Close()]; [log.Fatal] ends the process
    without running it. *)
Definition returned (e : ending) : bool :=
  match e with
  | Returns _ => true
  | Fatal _ | Running => false
  end.

Definition handleDownload (w : world) (fuel : nat) : run :=
  if String.eqb (path w) "" then
    mkRun None false 0 false
      (Returns (Some "first argument must be a torrent file or magnet link"))
  else
    match storage_err w with
    | Some e => mkRun None false 0 false (Fatal e)
    | None =>
        match (if is_magnet (path w) then None else open_err w) with
        | Some e => mkRun None false 0 false (Fatal e)
        | None =>
            match torrent_err w with
            | Some e => mkRun None false 0 false (Fatal e)
            | None =>
                let file := resume_name (Name w) (InfoHash w) in
                match resume_err w with
                | Some e => mkRun (Some file) false 0 false (Fatal e)
                | None =>
                    match set_resume_err w with
                    | Some e => mkRun (Some file) false 0 false (Fatal e)
                    | None =>
                        let '(n, e) := loop (seed w) (events w) fuel 0 0 in
                        mkRun (Some file) true n (returned e) e
                    end
                end
            end
        end
    end.

(** [main]: a nil result of [app.Run] lets the process end with status 0;
    otherwise [log.Fatal] ends it. *)
Inductive exit : Type := Exit0 | ExitFatal.

Definition main_exit (e : ending) : option exit :=
  match e with
  | Returns None => Some Exit0
  | Returns (Some _) => Some ExitFatal
  | Fatal _ => Some ExitFatal
  | Running => None
  end.

(** Modelled from the spec: the sanitising of a torrent name that section 9
    asks of an implementation (path separators and control characters
    replaced with an underscore); [handleDownload] has no such step. *)
Definition unsafe_char (c : ascii) : bool :=
  let n := nat_of_ascii c in
  (n <? 32)%nat || (n =? 127)%nat || (n =? 47)%nat || (n =? 92)%nat.

Fixpoint sanitize (s : string) : string :=
  match s with
  | EmptyString => EmptyString
  | String c r => String (if unsafe_char c then "_"%char else c) (sanitize r)
  end.

(** The resume file name as the specification words it. *)
Definition spec_resume_name (name infohash : string) : string :=
  sanitize name ++ "." ++ infohash ++ ".resume".

End Downloader.

(** ** Reading the runs of the downloader *)

Module Rounds.
Import Downloader.

#[local] Open Scope nat_scope.
#[local] Open Scope string_scope.

(** The first round among [k, k + n) whose case is the error case, with the
    value received there. *)
Fixpoint first_error (events : nat -> event) (n k : nat)
  : option (nat * option string) :=
  match n with
  | O => None
  | S m =>
      match events k with
      | Error e => Some (k, e)
      | Complete | Signal => first_error events m (S k)
      end
  end.

(** The rounds among [k, k + n) that are a completion without [--seed] or a
    signal. *)
Fixpoint stop_rounds (seed : bool) (events : nat -> event) (n k : nat)
  : nat :=
  match n with
  | O => 0
  | S m =>
      match events k with
      | Complete => if negb seed then 1 else 0
      | Signal => 1
      | Error _ => 0
      end + stop_rounds seed events m (S k)
  end.

(** The calls before [torrentresume.New] all succeed. *)
Definition torrent_made (w : world) : bool :=
  negb (String.eqb (path w) "")
  && match storage_err w with None => true | Some _ => false end
  && (is_magnet (path w)
      || match open_err w with None => true | Some _ => false end)
  && match torrent_err w with None => true | Some _ => false end.

(** The calls before the loop all succeed. *)
Definition loop_reached (w : world) : bool :=
  torrent_made w
  && match resume_err w with None => true | Some _ => false end
  && match set_resume_err w with None => true | Some _ => false end.

(** A download that completes, is stopped, and then receives a nil error. *)
Definition stopped : world :=
  mkWorld "ubuntu.torrent" false None None None
          "ubuntu.iso" "0123456789abcdef0123456789abcdef01234567"
          None None
          (fun k => match k with 0 => Complete | _ => Error None end).

(** A torrent whose name holds a path separator. *)
Definition nested : world :=
  mkWorld "t.torrent" false None None None
          "a/b" "0123456789abcdef0123456789abcdef01234567"
          None None (fun _ => Complete).

End Rounds.

(** ** Torrent files ([New]) *)

Module TorrentFile.
Import Mach.

(** The fields of [Torrent] that carry a bencode key; [RawInfo] is a
    [bencode.RawMessage], the bytes of the value of the "info" key as they
    stand in the file. *)
Record TorrentDict : Type := mkTorrentDict {
  dict_RawInfo : list byte;
  dict_Announce : string;
  dict_AnnounceList : list (list string);
  dict_CreationDate : Z;
  dict_Comment : string;
  dict_CreatedBy : string;
  dict_Encoding : string
}.

(** [type Torrent struct]; [Info] is a pointer, nil until [NewInfo] has
    succeeded. *)
Record Torrent : Type := mkTorrent {
  Info : option Metainfo.Info;
  RawInfo : list byte;
  Announce : string;
  AnnounceList : list (list string);
  CreationDate : Z;
  Comment : string;
  CreatedBy : string;
  Encoding : string
}.

Definition with_info (d : TorrentDict) (i : option Metainfo.Info)
  : Torrent :=
  mkTorrent i (dict_RawInfo d) (dict_Announce d) (dict_AnnounceList d)
            (dict_CreationDate d) (dict_Comment d) (dict_CreatedBy d)
            (dict_Encoding d).

Section WithFiles.

(** [os.Open(path)] and the bytes the decoder then reads from the file. *)
Variable Open : string -> result (list byte).
(** [bencode.NewDecoder(f).Decode(&t)]. *)
Variable DecodeTorrent : list byte -> result TorrentDict.
Variable Decode : list byte -> result Metainfo.InfoDict.

(** [func New(path string)]: the [Torrent] pointer it returns (nil is
    [None]) and the error (nil is [None]). *)
Definition New (path : string) : option Torrent * option string :=
  match Open path with
  | Err e => (None, Some e)
  | Ok content =>
      match DecodeTorrent content with
      | Err e => (None, Some e)
      | Ok d =>
          if (length (dict_RawInfo d) =? 0)%nat
          then (None, Some "no info dict in torrent file"%string)
          else
            match Metainfo.NewInfo Decode (dict_RawInfo d) with
            | Ok i => (Some (with_info d (Some i)), None)
            | Err e => (Some (with_info d None), Some e)
            end
      end
  end.

End WithFiles.

(** *** Reading a torrent file with the bencode reader *)

(** The entries of a dictionary body, each value as the bytes it is written
    with. *)
Fixpoint raw_entries (fuel : nat) (l : list byte)
  : option (list (list byte * list byte)) :=
  match fuel with
  | O => None
  | S k =>
      match l with
      | [] => None
      | b :: r =>
          if Byte.eqb b "e"%byte then Some []
          else
            match Bencode.read_str l with
            | Some (key, r1) =>
                match Bencode.parse (2 * length r1 + 2) r1 with
                | Some (_, r2) =>
                    match raw_entries k r2 with
                    | Some es =>
                        Some ((key,
                               firstn (length r1 - length r2) r1) :: es)
                    | None => None
                    end
                | None => None
                end
            | None => None
            end
      end
  end.

Fixpoint raw_lookup (key : string) (es : list (list byte * list byte))
  : list byte :=
  match es with
  | [] => []
  | (k, v) :: r =>
      if String.eqb (string_of_list_byte k) key then v else raw_lookup key r
  end.

Fixpoint tiers (vs : list Bencode.value) : option (list (list string)) :=
  match vs with
  | [] => Some []
  | Bencode.List t :: r =>
      match Bencode.strings t, tiers r with
      | Some ss, Some ts => Some (ss :: ts)
      | _, _ => None
      end
  | _ :: _ => None
  end.

Definition get_tiers (d : list (list byte * Bencode.value))
  : option (list (list string)) :=
  match Bencode.lookup "announce-list" d with
  | None => Some []
  | Some (Bencode.List vs) => tiers vs
  | Some _ => None
  end.

Definition BencodeDecodeTorrent (b : list byte) : result TorrentDict :=
  match Bencode.read b, b with
  | Some (Bencode.Dict d), _ :: body =>
      match raw_entries (length b + 1) body,
            Metainfo.to_string (Bencode.get_bytes "announce" d),
            get_tiers d,
            Bencode.get_int (- 2 ^ 63) (2 ^ 63 - 1) "creation date" d,
            Metainfo.to_string (Bencode.get_bytes "comment" d),
            Metainfo.to_string (Bencode.get_bytes "created by" d),
            Metainfo.to_string (Bencode.get_bytes "encoding" d) with
      | Some es, Some an, Some al, Some cd, Some co, Some cb, Some en =>
          Ok (mkTorrentDict (raw_lookup "info" es) an al cd co cb en)
      | _, _, _, _, _, _, _ => Err "bencode: cannot unmarshal"
      end
  | Some _, _ => Err "bencode: not a dictionary"
  | None, _ => Err "bencode: syntax error"
  end.

(** [PieceHash] at every index below [NumPieces], in order. *)
Definition hashes (i : Metainfo.Info) : list (outcome (list byte)) :=
  map (fun k => Metainfo.PieceHash i (Z.of_nat k))
      (seq 0 (Z.to_nat (Metainfo.NumPieces i))).

(** A file system with one torrent file, one file whose info dictionary
    the info decoder rejects, and one file without an info dictionary. *)
Definition files (path : string) : result (list byte) :=
  if String.eqb path "a.torrent" then
    Ok (list_byte_of_string
          "d8:announce14:http://t.co/an4:infod6:lengthi100e4:name1:a12:piece lengthi64e6:pieces40:0123456789012345678901234567890123456789ee")
  else if String.eqb path "bad.torrent" then
    Ok (list_byte_of_string "d4:infod4:namei7eee")
  else if String.eqb path "empty.torrent" then
    Ok (list_byte_of_string "d8:announce14:http://t.co/ane")
  else Err "open: no such file or directory".

End TorrentFile.

(** ** Reading the outcomes of the public methods *)

Module Outcomes.
Import Chan Public.

#[local] Open Scope nat_scope.

(** The command channel of a call. *)
Definition channel_of (c : call) (t : Torrent) : ref :=
  match c with
  | CallStart => startCommandC t
  | CallStop => stopCommandC t
  | CallClose => closeC t
  end.

(** A torrent that is not closed and whose controller is busy, with two
    goroutines waiting in [Close] to send on [closeC]. *)
Definition busy_heap : heap :=
  fun r => if (r =? 3)%nat then mkChan 0 0 false 0 2
           else mkChan 0 0 false 0 0.

(** The state in which [k] more commands can be handed over: no command
    channel is closed, the controller stands ready to receive at least [k]
    times on each, and [closedC] is not ready. *)
Definition receiving (t : Torrent) (h : heap) (k : nat) : Prop :=
  (forall c, closed (h (channel_of c t)) = false
             /\ k <= receivers (h (channel_of c t)))
  /\ can_recv (h (closedC t)) = false.

(** A torrent whose controller stands ready to receive three commands. *)
Definition ready_heap : heap :=
  fun r => if (r =? 4)%nat || (r =? 5)%nat then mkChan 0 0 false 0 0
           else mkChan 0 0 false 3 0.

End Outcomes.

(** ** Reading the set-up of the downloader *)

Module Setup.
Import Downloader Rounds.

#[local] Open Scope nat_scope.
#[local] Open Scope string_scope.

(** The error of the first set-up call of [handleDownload] that fails, in
    the order the calls are made; a magnet link opens no file. *)
Definition setup_error (w : world) : option string :=
  match storage_err w with
  | Some e => Some e
  | None =>
      match (if is_magnet (path w) then None else open_err w) with
      | Some e => Some e
      | None =>
          match torrent_err w with
          | Some e => Some e
          | None =>
              match resume_err w with
              | Some e => Some e
              | None => set_resume_err w
              end
          end
      end
  end.

(** The rounds among [k, k + n) that are a signal. *)
Fixpoint signal_rounds (events : nat -> event) (n k : nat) : nat :=
  match n with
  | O => 0
  | S m =>
      match events k with
      | Signal => 1
      | Complete | Error _ => 0
      end + signal_rounds events m (S k)
  end.

(** A download whose resume file cannot be opened. *)
Definition no_resume : world :=
  mkWorld "ubuntu.torrent" false None None None
          "ubuntu.iso" "0123456789abcdef0123456789abcdef01234567"
          (Some "open ubuntu.iso.resume: permission denied") None
          (fun _ => Complete).

(** A seeding download that is interrupted again and again. *)
Definition interrupted : world :=
  mkWorld "magnet:?xt=urn:btih:0123456789abcdef0123456789abcdef01234567"
          true None (Some "not used") None
          "ubuntu.iso" "0123456789abcdef0123456789abcdef01234567"
          None None
          (fun k => if Nat.even k then Complete else Signal).

End Setup.

(** ** The logger package *)

Module Logger.

#[local] Open Scope nat_scope.
#[local] Open Scope string_scope.

Inductive sink : Type := Stderr | File (name : string).

(** The levels of github.com/cenkalti/log. *)
Inductive Level : Type := CRITICAL | ERROR | WARNING | NOTICE | INFO | DEBUG.

(** A handler object of the log library, as far as this program sets it
    up: where it writes, whether [SetFormatter(logFormatter{})] was called
    on it, and the level given to it by [SetLevel], if any. *)
Record handler : Type := mkHandler {
  out : sink;
  custom_format : bool;
  level : option Level
}.

(** Handlers are shared by reference: the store of handler objects, and the
    package variable [Handler]. *)
Record globals : Type := mkGlobals {
  store : list handler;
  Handler : nat
}.

(** [func init()]. *)
Definition init : globals :=
  mkGlobals [mkHandler Stderr true None] 0.

Record logger : Type := mkLogger {
  logger_name : string;
  logger_level : option Level;
  logger_handler : nat
}.

(** [func New(name string) Logger]. *)
Definition New (name : string) (g : globals) : logger :=
  mkLogger name (Some DEBUG) (Handler g).

(** The handler object a logger writes through. *)
Definition handler_of (g : globals) (l : logger) : option handler :=
  nth_error (store g) (logger_handler l).

Fixpoint set_nth {A} (n : nat) (x : A) (l : list A) : list A :=
  match l, n with
  | [], _ => []
  | _ :: r, O => x :: r
  | y :: r, S m => y :: set_nth m x r
  end.

(** [logger.Handler = log.NewFileHandler(f)]: a new handler object. *)
Definition replace_handler (f : string) (g : globals) : globals :=
  mkGlobals (store g ++ [mkHandler (File f) false None]) (length (store g)).

(** [h.SetLevel(lv)]. *)
Definition with_level (lv : Level) (h : handler) : handler :=
  mkHandler (out h) (custom_format h) (Some lv).

(** [logger.Handler.SetLevel(lv)]: the object [Handler] refers to is
    changed in place. *)
Definition set_handler_level (lv : Level) (g : globals) : globals :=
  match nth_error (store g) (Handler g) with
  | Some h =>
      mkGlobals (set_nth (Handler g) (with_level lv h) (store g))
                (Handler g)
  | None => g
  end.

End Logger.

(** ** The hooks around a command ([handleBeforeCommand],
    [handleAfterCommand]) *)

Module Cli.
Import Mach.

#[local] Open Scope string_scope.

(** The global flags, as [c.GlobalString] and [c.GlobalBool] give them. *)
Record flags : Type := mkFlags {
  cpuprofile : string;
  config : string;
  logfile : string;
  debug : bool
}.

(** The results of the calls the hooks make. *)
Record system : Type := mkSystem {
  create_err : string -> option string;    (* os.Create *)
  profile_err : option string;             (* pprof.StartCPUProfile *)
  expand : string -> result string;        (* homedir.Expand *)
  load_err : string -> option string       (* cfg.LoadFile *)
}.

Record proc : Type := mkProc {
  log : Logger.globals;
  profiling : bool;            (* a CPU profile is being written *)
  created : list string;       (* files made by os.Create, in order *)
  loaded : list string         (* configuration files loaded, in order *)
}.

(** A hook or a part of one: it goes on with a new state, or ends the
    process in [log.Fatal]. *)
Inductive ended : Type :=
| Next (p : proc)
| Fatal (msg : string) (p : proc).

Definition andthen (x : ended) (k : proc -> ended) : ended :=
  match x with
  | Next p => k p
  | Fatal m p => Fatal m p
  end.

Notation "x ;; k" := (andthen x k) (at level 61, right associativity).

Definition start_profile (c : flags) (s : system) (p : proc) : ended :=
  if String.eqb (cpuprofile c) "" then Next p
  else
    match create_err s (cpuprofile c) with
    | Some e => Fatal ("could not create CPU profile: " ++ e) p
    | None =>
        let p1 := mkProc (log p) (profiling p)
                         (created p ++ [cpuprofile c]) (loaded p) in
        match profile_err s with
        | Some e => Fatal ("could not start CPU profile: " ++ e) p1
        | None => Next (mkProc (log p1) true (created p1) (loaded p1))
        end
    end.

Definition load_config (c : flags) (s : system) (p : proc) : ended :=
  if String.eqb (config c) "" then Next p
  else
    match expand s (config c) with
    | Err e => Fatal e p
    | Ok cp =>
        match load_err s cp with
        | Some e => Fatal e p
        | None =>
            Next (mkProc (log p) (profiling p) (created p)
                         (loaded p ++ [cp]))
        end
    end.

Definition open_logfile (c : flags) (s : system) (p : proc) : ended :=
  if String.eqb (logfile c) "" then Next p
  else
    match create_err s (logfile c) with
    | Some e => Fatal ("could not create log file: " ++ e) p
    | None =>
        Next (mkProc (Logger.replace_handler (logfile c) (log p))
                     (profiling p) (created p ++ [logfile c]) (loaded p))
    end.

Definition set_debug (c : flags) (p : proc) : ended :=
  if debug c
  then Next (mkProc (Logger.set_handler_level Logger.DEBUG (log p))
                    (profiling p) (created p) (loaded p))
  else Next p.

(** [func handleBeforeCommand(c *cli.Context) error]; when it returns, it
    returns nil. *)
Definition handleBeforeCommand (c : flags) (s : system) (p : proc)
  : ended :=
  start_profile c s p ;; fun p1 =>
  load_config c s p1 ;; fun p2 =>
  open_logfile c s p2 ;; fun p3 =>
  set_debug c p3.

(** [func handleAfterCommand(c *cli.Context) error]; it returns nil. *)
Definition handleAfterCommand (c : flags) (p : proc) : proc :=
  if String.eqb (cpuprofile c) "" then p
  else mkProc (log p) false (created p) (loaded p).

(** The file a flag names, if it is set. *)
Definition flagged (f : string) : list string :=
  if String.eqb f "" then [] else [f].

(** The process as [main] finds it: the logger package initialised,
    nothing else done. *)
Definition boot : proc := mkProc Logger.init false [] [].

(** A system where every call succeeds. *)
Definition fine : system :=
  mkSystem (fun _ => None) None (fun p => Ok p) (fun _ => None).

Definition all_flags : flags :=
  mkFlags "cpu.prof" "~/rain.yaml" "rain.log" true.

End Cli.

(** ** The log line format ([logFormatter.Format]) *)

Module LogFormat.
Import Mach.

(** [utf8.RuneCountInString]: a well-formed sequence of two to four bytes
    counts once, every other byte once. *)
Definition first (c : Z) : option (nat * Z * Z) :=
  if (0xC2 <=? c) && (c <=? 0xDF) then Some (2%nat, 0x80, 0xBF)
  else if c =? 0xE0 then Some (3%nat, 0xA0, 0xBF)
  else if (0xE1 <=? c) && (c <=? 0xEC) then Some (3%nat, 0x80, 0xBF)
  else if c =? 0xED then Some (3%nat, 0x80, 0x9F)
  else if (0xEE <=? c) && (c <=? 0xEF) then Some (3%nat, 0x80, 0xBF)
  else if c =? 0xF0 then Some (4%nat, 0x90, 0xBF)
  else if (0xF1 <=? c) && (c <=? 0xF3) then Some (4%nat, 0x80, 0xBF)
  else if c =? 0xF4 then Some (4%nat, 0x80, 0x8F)
  else None.

Definition continuation (c : Z) : bool := (0x80 <=? c) && (c <=? 0xBF).

(** The number of bytes of the rune that starts with [c], followed by
    [r]. *)
Definition rune_size (c : Z) (r : list Z) : nat :=
  if c <? 0x80 then 1%nat
  else
    match first c with
    | None => 1%nat
    | Some (size, lo, hi) =>
        if (length r <? size - 1)%nat then 1%nat
        else
          match r with
          | c1 :: r1 =>
              if (c1 <? lo) || (hi <? c1) then 1%nat
              else if (size =? 2)%nat then 2%nat
              else
                match r1 with
                | c2 :: r2 =>
                    if negb (continuation c2) then 1%nat
                    else if (size =? 3)%nat then 3%nat
                    else
                      match r2 with
                      | c3 :: _ =>
                          if negb (continuation c3) then 1%nat else 4%nat
                      | [] => 1%nat
                      end
                | [] => 1%nat
                end
          | [] => 1%nat
          end
    end.

Fixpoint count_runes (fuel : nat) (s : list Z) : nat :=
  match fuel with
  | O => O
  | S f =>
      match s with
      | [] => O
      | c :: r => S (count_runes f (skipn (pred (rune_size c r)) r))
      end
  end.

Definition codes (s : string) : list Z :=
  map (fun a => Z.of_nat (nat_of_ascii a)) (list_ascii_of_string s).

Definition RuneCountInString (s : string) : nat :=
  count_runes (String.length s) (codes s).

Fixpoint spaces (n : nat) : string :=
  match n with
  | O => EmptyString
  | S k => String " "%char (spaces k)
  end.

(** The verb [%-8s]: the string, then spaces up to a width of 8 runes. *)
Definition pad8 (s : string) : string :=
  (s ++ spaces (8 - RuneCountInString s))%string.

(** [filepath.Base] with the separator [/]. *)
Definition is_sep (a : ascii) : bool := Ascii.eqb a "/"%char.

Fixpoint drop_seps (rev_path : list ascii) : list ascii :=
  match rev_path with
  | a :: r => if is_sep a then drop_seps r else rev_path
  | [] => []
  end.

Fixpoint until_sep (rev_path : list ascii) : list ascii :=
  match rev_path with
  | a :: r => if is_sep a then [] else a :: until_sep r
  | [] => []
  end.

Definition Base (path : string) : string :=
  if String.eqb path "" then "."%string
  else
    match rev (until_sep (drop_seps (rev (list_ascii_of_string path)))) with
    | [] => "/"%string
    | last => string_of_list_ascii last
    end.

(** [strconv.Itoa] on an [int]. *)
Fixpoint digits (fuel : nat) (n : Z) (acc : string) : string :=
  match fuel with
  | O => acc
  | S f =>
      let acc' := String (ascii_of_nat (48 + Z.to_nat (n mod 10))) acc in
      if n <? 10 then acc' else digits f (n / 10) acc'
  end.

Definition Itoa (z : Z) : string :=
  if z <? 0 then String "-"%char (digits 20 (- z) EmptyString)
  else digits 20 z EmptyString.

(** The fields of [log.Record] that [Format] reads; [Time] and [Level] as
    [fmt] prints them under [%s]. *)
Record Record_ : Type := mkRecord {
  Time : string;           (* fmt.Sprint(rec.Time) *)
  Level : string;
  LoggerName : string;
  Filename : string;
  Line : Z;
  Message : string
}.

(** [func (f logFormatter) Format(rec *log.Record) string]. *)
Definition Format (rec : Record_) : outcome string :=
  if (String.length (Time rec) <? 19)%nat
  then Panic "slice bounds out of range"
  else
    Return (substring 0 19 (Time rec) ++ " " ++ pad8 (Level rec)
            ++ " [" ++ LoggerName rec ++ "] "
            ++ pad8 (Base (Filename rec) ++ ":" ++ Itoa (Line rec))
            ++ " " ++ Message rec)%string.

(** Every byte of the string is below [0x80]. *)
Definition ascii_only (s : string) : bool :=
  forallb (fun c => c <? 0x80) (codes s).

Definition example : Record_ :=
  mkRecord "2014-02-28 18:15:57.123456789 +0000 UTC" "INFO" "example"
           "/go/src/rain/torrent/run.go" 42 "something happened".

End LogFormat.

(** * Properties *)

(** ** SHA-1 *)

Module SHA1Facts.
Import Mach SHA1.

Lemma be_bytes_length n z : length (be_bytes n z) = n.
Proof. induction n; simpl; congruence. Qed.

Lemma Sum_length b : length (Sum b) = 20%nat.
Proof.
  unfold Sum, digest. repeat rewrite length_app.
  repeat rewrite be_bytes_length. reflexivity.
Qed.

(** FIPS 180 test vectors. *)
Example Sum_abc :
  Sum (list_byte_of_string "abc")
  = [xa9; x99; x3e; x36; x47; x06; x81; x6a; xba; x3e;
     x25; x71; x78; x50; xc2; x6c; x9c; xd0; xd8; x9d].
Proof. vm_compute. reflexivity. Qed.

Example Sum_empty :
  Sum []
  = [xda; x39; xa3; xee; x5e; x6b; x4b; x0d; x32; x55;
     xbf; xef; x95; x60; x18; x90; xaf; xd8; x07; x09].
Proof. vm_compute. reflexivity. Qed.

Example Sum_two_blocks :
  Sum (list_byte_of_string
         "abcdbcdecdefdefgefghfghighijhijkijkljklmklmnlmnomnopnopq")
  = [x84; x98; x3e; x44; x1c; x3b; xd2; x6e; xba; xae;
     x4a; xa1; xf9; x51; x29; xe5; xe5; x46; x70; xf1].
Proof. vm_compute. reflexivity. Qed.

End SHA1Facts.

(** ** The info dictionary *)

Module MetainfoFacts.
Import Mach Metainfo.

Lemma NewInfo_computed Decode b i :
  NewInfo Decode b = Ok i -> computed b i.
Proof.
  unfold NewInfo. destruct (Decode b) as [d | e]; [ | discriminate ].
  intros H. injection H as <-. unfold computed; simpl.
  repeat split.
  destruct (length (dict_Files d) =? 0)%nat; reflexivity.
Qed.

Lemma copy_full dst src : length src = length dst -> copy dst src = src.
Proof.
  intros H. unfold copy.
  rewrite firstn_all2 by lia. rewrite skipn_all2 by lia. apply app_nil_r.
Qed.

Lemma wrap_i64_in_range z : in_i64 z -> wrap_i64 z = z.
Proof.
  unfold in_i64, wrap_i64. intros H.
  rewrite Z.mod_small by lia. lia.
Qed.

Lemma wrap_i64_add_l t x : wrap_i64 (wrap_i64 t + x) = wrap_i64 (t + x).
Proof.
  unfold wrap_i64. f_equal.
  replace ((t + 2 ^ 63) mod 2 ^ 64 - 2 ^ 63 + x + 2 ^ 63)
    with ((t + 2 ^ 63) mod 2 ^ 64 + x) by lia.
  rewrite Zplus_mod_idemp_l. f_equal. lia.
Qed.

Lemma add_lengths_wrap fs : forall t,
  add_lengths fs (wrap_i64 t) = wrap_i64 (t + sum_lengths fs).
Proof.
  induction fs as [ | f r IH ]; intros t; simpl.
  - f_equal. lia.
  - unfold add_lengths in *. simpl. rewrite wrap_i64_add_l, IH.
    f_equal. lia.
Qed.

Lemma add_lengths_0 fs : add_lengths fs 0 = wrap_i64 (sum_lengths fs).
Proof. exact (add_lengths_wrap fs 0). Qed.

Lemma NumPieces_bounds i :
  NumPieces i = wrap_u32 (Z.of_nat (length (Pieces i))) / 20 ->
  0 <= NumPieces i
  /\ 20 * NumPieces i <= wrap_u32 (Z.of_nat (length (Pieces i)))
       < 20 * NumPieces i + 20
  /\ wrap_u32 (Z.of_nat (length (Pieces i))) <= Z.of_nat (length (Pieces i))
  /\ wrap_u32 (Z.of_nat (length (Pieces i))) < 2 ^ 32.
Proof.
  intros ->. unfold wrap_u32.
  set (n := Z.of_nat (length (Pieces i))).
  assert (Hn : 0 <= n) by (subst n; lia).
  pose proof (Z.mod_pos_bound n (2 ^ 32) ltac:(lia)) as Hm.
  pose proof (Z.mod_le n (2 ^ 32) Hn ltac:(lia)) as Hle.
  pose proof (Z.div_mod (n mod 2 ^ 32) 20 ltac:(lia)) as Hd.
  pose proof (Z.mod_pos_bound (n mod 2 ^ 32) 20 ltac:(lia)) as Hr.
  pose proof (Z.div_pos (n mod 2 ^ 32) 20 ltac:(lia) ltac:(lia)).
  repeat split; lia.
Qed.

Lemma TotalLength_sum Decode b i :
  NewInfo Decode b = Ok i ->
  TotalLength i =
    (if MultiFile i then wrap_i64 (sum_lengths (GetFiles i))
     else sum_lengths (GetFiles i)).
Proof.
  intros H. apply NewInfo_computed in H.
  destruct H as (_ & _ & _ & _ & HT).
  unfold GetFiles. rewrite HT.
  destruct (MultiFile i); [ apply add_lengths_0 | simpl; lia ].
Qed.

(** When the lengths sum to an int64, [TotalLength] is their sum. *)
Lemma TotalLength_exact Decode b i :
  NewInfo Decode b = Ok i ->
  in_i64 (sum_lengths (GetFiles i)) ->
  TotalLength i = sum_lengths (GetFiles i).
Proof.
  intros H Hr. rewrite (TotalLength_sum Decode b i H).
  destruct (MultiFile i); [ apply wrap_i64_in_range | ]; tauto.
Qed.

(** C3 as stated fails: [NewInfo] accepts an info dictionary whose [pieces]
    string is 25 bytes long for a content of 100 bytes in pieces of 10; it
    sets [NumPieces] to 1, which is neither the number of 20-byte digests
    that make up [Pieces] nor the ceiling of 100/10. *)
Lemma NewInfo_piece_table_unchecked :
  exists i, NewInfo BencodeDecode ragged = Ok i
    /\ NumPieces i = 1
    /\ Z.of_nat (length (Pieces i)) = 25
    /\ ceil_div (TotalLength i) (PieceLength i) = 10
    /\ ~ (Z.of_nat (length (Pieces i)) = 20 * NumPieces i
          /\ NumPieces i = ceil_div (TotalLength i) (PieceLength i)).
Proof.
  eexists. split; [ vm_compute; reflexivity | ].
  repeat split; try (vm_compute; reflexivity).
  intros [H _]. vm_compute in H. discriminate H.
Qed.

(** C3, amended: for every byte string that [NewInfo] accepts, [NumPieces]
    is the length of [Pieces] (as a uint32) divided by 20, rounding down:
    [Pieces] begins with [NumPieces] whole 20-byte digests and fewer than 20
    bytes of the uint32 length are left over.  [NumPieces] does not depend
    on [TotalLength] or [PieceLength]. *)
Theorem NewInfo_NumPieces Decode b i :
  NewInfo Decode b = Ok i ->
  NumPieces i = wrap_u32 (Z.of_nat (length (Pieces i))) / 20
  /\ 0 <= NumPieces i
  /\ 20 * NumPieces i <= Z.of_nat (length (Pieces i))
  /\ wrap_u32 (Z.of_nat (length (Pieces i))) - 20 * NumPieces i < 20.
Proof.
  intros H. apply NewInfo_computed in H.
  destruct H as (_ & _ & _ & HN & _).
  pose proof (NumPieces_bounds i HN). repeat split; lia.
Qed.

Lemma NewInfo_NumPieces_witness :
  exists i, NewInfo BencodeDecode ragged = Ok i
    /\ NumPieces i = wrap_u32 (Z.of_nat (length (Pieces i))) / 20
    /\ 0 <= NumPieces i
    /\ 20 * NumPieces i <= Z.of_nat (length (Pieces i))
    /\ wrap_u32 (Z.of_nat (length (Pieces i))) - 20 * NumPieces i < 20.
Proof.
  eexists. split; [ vm_compute; reflexivity | ].
  apply (NewInfo_NumPieces BencodeDecode ragged). vm_compute. reflexivity.
Defined.

(** C5: for every byte string [b] that [NewInfo] accepts, [Hash] is the
    20-byte SHA-1 digest of [b]. *)
Theorem NewInfo_Hash Decode b i :
  NewInfo Decode b = Ok i ->
  Hash i = SHA1.Sum b /\ length (Hash i) = 20%nat.
Proof.
  intros H. apply NewInfo_computed in H.
  destruct H as (_ & HH & _).
  assert (E : copy (repeat x00 20) (SHA1.Sum b) = SHA1.Sum b).
  { apply copy_full. rewrite repeat_length. apply SHA1Facts.Sum_length. }
  rewrite HH, E. split; [ reflexivity | apply SHA1Facts.Sum_length ].
Qed.

Lemma NewInfo_Hash_witness :
  exists i, NewInfo BencodeDecode sample = Ok i
    /\ Hash i = SHA1.Sum sample /\ length (Hash i) = 20%nat.
Proof.
  eexists. split; [ vm_compute; reflexivity | ].
  apply (NewInfo_Hash BencodeDecode sample). vm_compute. reflexivity.
Defined.

(** C4: for every [Info] returned by [NewInfo] and every uint32 [index]
    below [NumPieces], [PieceHash] returns the 20-byte digest at [index],
    the bytes of [Pieces] from [20 * index] to [20 * index + 20]: neither
    the out-of-range panic nor the slice expression's own is reached.  At
    an [index] not below [NumPieces] it panics with "piece index out of
    range" instead of returning a value, which is why an index that comes
    from a peer has to be validated before the call. *)
Theorem PieceHash_spec Decode b i index :
  NewInfo Decode b = Ok i ->
  in_u32 index ->
  match PieceHash i index with
  | Return d =>
      index < NumPieces i /\ d = digest_at i index /\ length d = 20%nat
  | Panic m =>
      NumPieces i <= index /\ m = "piece index out of range"%string
  end.
Proof.
  intros H Hi. apply NewInfo_computed in H.
  destruct H as (_ & _ & _ & HN & _).
  pose proof (NumPieces_bounds i HN) as (H0 & [Hlo _] & Hle & Hlt).
  unfold in_u32 in Hi. unfold PieceHash, SHA1.Size.
  destruct (index >=? NumPieces i) eqn:E.
  - split; [ lia | reflexivity ].
  - assert (Hidx : index < NumPieces i) by lia.
    unfold wrap_u32 in *.
    rewrite (Z.mod_small (index * 20)) by lia.
    rewrite (Z.mod_small (index * 20 + 20)) by lia.
    unfold slice.
    replace (index * 20 <=? index * 20 + 20) with true
      by (symmetry; apply Z.leb_le; lia).
    replace (index * 20 + 20 <=? Z.of_nat (length (Pieces i))) with true
      by (symmetry; apply Z.leb_le; lia).
    simpl andb. cbv iota.
    replace (index * 20 + 20 - index * 20) with 20 by lia.
    replace (index * 20) with (20 * index) by lia.
    split; [ exact Hidx | ]. split; [ reflexivity | ].
    rewrite length_firstn, length_skipn.
    change (Z.to_nat 20) with 20%nat. lia.
Qed.

Lemma PieceHash_spec_witness :
  exists i, NewInfo BencodeDecode sample = Ok i
    /\ in_u32 0
    /\ match PieceHash i 0 with
       | Return d =>
           0 < NumPieces i /\ d = digest_at i 0 /\ length d = 20%nat
       | Panic m =>
           NumPieces i <= 0 /\ m = "piece index out of range"%string
       end.
Proof.
  eexists. split; [ vm_compute; reflexivity | ].
  split; [ unfold in_u32; lia | ].
  apply (PieceHash_spec BencodeDecode sample);
    [ vm_compute; reflexivity | unfold in_u32; lia ].
Defined.

(** C10 as stated fails: [NewInfo] accepts an info dictionary with two
    files of lengths 2^63 - 1 and 1; their lengths sum to 2^63, while the
    int64 [TotalLength] has wrapped around to -2^63. *)
Lemma NewInfo_TotalLength_wraps :
  exists i, NewInfo BencodeDecode huge = Ok i
    /\ sum_lengths (GetFiles i) = 2 ^ 63
    /\ TotalLength i = - 2 ^ 63
    /\ sum_lengths (GetFiles i) <> TotalLength i.
Proof.
  eexists. split; [ vm_compute; reflexivity | ].
  repeat split; vm_compute; congruence.
Qed.

(** C10, amended: for every [Info] returned by [NewInfo], [GetFiles] is not
    empty: it is [Files] in multi-file mode and otherwise the one entry
    with path [[Name]] and length [Length]; [MultiFile] holds exactly when
    [Files] is not empty; [TotalLength] is the sum of the lengths of the
    entries of [GetFiles], in multi-file mode reduced to an int64 by
    wrap-around (so it is the sum whenever the sum fits an int64). *)
Theorem GetFiles_spec Decode b i :
  NewInfo Decode b = Ok i ->
  GetFiles i <> []
  /\ GetFiles i =
       (if MultiFile i then Files i
        else [mkFile (Length i) [Name i] (Md5sum i)])
  /\ (MultiFile i = true <-> Files i <> [])
  /\ TotalLength i =
       (if MultiFile i then wrap_i64 (sum_lengths (GetFiles i))
        else sum_lengths (GetFiles i)).
Proof.
  intros H. pose proof (TotalLength_sum Decode b i H) as HT.
  apply NewInfo_computed in H.
  destruct H as (_ & _ & HM & _ & _).
  assert (Hiff : MultiFile i = true <-> Files i <> []).
  { rewrite HM. destruct (Files i); simpl; split; congruence. }
  split; [ | split; [ reflexivity | split; [ exact Hiff | exact HT ] ] ].
  unfold GetFiles. destruct (MultiFile i); [ tauto | discriminate ].
Qed.

Lemma GetFiles_spec_witness :
  exists i, NewInfo BencodeDecode huge = Ok i
    /\ GetFiles i <> []
    /\ GetFiles i =
         (if MultiFile i then Files i
          else [mkFile (Length i) [Name i] (Md5sum i)])
    /\ (MultiFile i = true <-> Files i <> [])
    /\ TotalLength i =
         (if MultiFile i then wrap_i64 (sum_lengths (GetFiles i))
          else sum_lengths (GetFiles i)).
Proof.
  eexists. split; [ vm_compute; reflexivity | ].
  apply (GetFiles_spec BencodeDecode huge). vm_compute. reflexivity.
Defined.

End MetainfoFacts.

(** ** The public methods after Close *)

Module PublicFacts.
Import Chan Public Engine.

#[local] Open Scope nat_scope.

Lemma update_same (h : heap) r : forall r', update h r (h r) r' = h r'.
Proof.
  intros r'. unfold update. destruct (r' =? r) eqn:E; [ | reflexivity ].
  apply Nat.eqb_eq in E. congruence.
Qed.

Lemma after_recv_closed c :
  queued c = 0 -> senders c = 0 -> after_recv c = c.
Proof. intros Hq Hs. unfold after_recv. rewrite Hq, Hs. reflexivity. Qed.

Lemma is_closed_inv t h :
  is_closed t h = true ->
  closed (h (closedC t)) = true
  /\ after_recv (h (closedC t)) = h (closedC t)
  /\ can_send (h (startCommandC t)) = false
  /\ can_send (h (stopCommandC t)) = false
  /\ can_send (h (closeC t)) = false
  /\ can_recv (h (closeC t)) = false
  /\ can_send (h (notifyErrorCommandC t)) = false
  /\ can_send (h (statsCommandC t)) = false.
Proof.
  unfold is_closed, quiet. intros H.
  repeat (apply andb_prop in H; destruct H as [H ?]).
  repeat match goal with
         | X : _ && _ = true |- _ => apply andb_prop in X; destruct X
         | X : negb _ = true |- _ => apply negb_true_iff in X
         | X : (_ =? _) = true |- _ => apply Nat.eqb_eq in X
         end.
  repeat split; try assumption.
  apply after_recv_closed; assumption.
Qed.

Lemma is_closed_ext t h h' :
  (forall r, h' r = h r) -> is_closed t h = true -> is_closed t h' = true.
Proof. intros E H. unfold is_closed in *. rewrite !E. exact H. Qed.

(** With the send case not ready and [closedC] closed, the select of
    [Start], [Stop] and [Close] takes its second case. *)
Lemma command_after_closed cmdC t h :
  can_send (h cmdC) = false ->
  closed (h (closedC t)) = true ->
  after_recv (h (closedC t)) = h (closedC t) ->
  exists h', command cmdC t h = [Finished h' [] tt]
             /\ forall r, h' r = h r.
Proof.
  intros Hs Hc Hr. unfold command, select, send_case, recv_case. simpl.
  rewrite Hs. unfold can_recv. rewrite Hc. simpl. rewrite Hr.
  eexists. split; [ reflexivity | apply update_same ].
Qed.

(** While the controller is receiving and the torrent is not closed, the
    same select takes its first case: the command is sent, once. *)
Lemma command_when_live cmdC t h :
  closed (h cmdC) = false ->
  0 < receivers (h cmdC) ->
  can_recv (h (closedC t)) = false ->
  exists h', command cmdC t h = [Finished h' [cmdC] tt].
Proof.
  intros Hc Hr Hn. unfold command, select, send_case, recv_case. simpl.
  unfold can_send. rewrite Hc, Hn.
  apply Nat.ltb_lt in Hr. rewrite Hr. simpl.
  eexists. reflexivity.
Qed.

Example Close_live :
  exists h', Close torrent7 live_heap = [Finished h' [closeC torrent7] tt].
Proof. eexists. reflexivity. Qed.

Example Stats_live :
  exists h', Stats_ (Some (mkStats 7 0 3 1 2 3)) torrent7 live_heap
             = [Finished h' [statsCommandC torrent7] (mkStats 7 0 3 1 2 3)].
Proof. eexists. reflexivity. Qed.

Lemma do_call_after_closed c t h :
  is_closed t h = true ->
  exists h', do_call c t h = [Finished h' [] tt] /\ forall r, h' r = h r.
Proof.
  intros H. apply is_closed_inv in H.
  destruct H as (Hc & Hr & H1 & H2 & H3 & _).
  destruct c; simpl; unfold Start, Stop, Close;
    apply command_after_closed; assumption.
Qed.

(** C1: once the torrent is closed, every sequence of calls to [Start],
    [Stop] and [Close] (so also [Close(); Close()]) returns, in the one way
    it can go, without sending on a command channel and leaving every
    channel as it was. *)
Theorem calls_after_closed t h cs sent :
  is_closed t h = true ->
  exists h', do_calls cs t h sent = [Finished h' sent tt]
             /\ forall r, h' r = h r.
Proof.
  revert h sent.
  induction cs as [ | c cs IH ]; intros h sent H; simpl.
  - exists h. split; reflexivity.
  - destruct (do_call_after_closed c t h H) as (h1 & E1 & Eq1).
    rewrite E1. unfold bind. simpl. rewrite !app_nil_r.
    destruct (IH h1 sent (is_closed_ext t h h1 Eq1 H)) as (h2 & E2 & Eq2).
    exists h2. split; [ exact E2 | ].
    intros r. rewrite Eq2. apply Eq1.
Qed.

Lemma calls_after_closed_witness :
  is_closed torrent7 closed_heap = true
  /\ exists h', do_calls [CallClose; CallClose] torrent7 closed_heap []
                = [Finished h' [] tt]
                /\ forall r, h' r = closed_heap r.
Proof.
  split; [ reflexivity | ].
  apply (calls_after_closed torrent7 closed_heap [CallClose; CallClose] []).
  reflexivity.
Defined.

(** C2, on the code: in the closed state [Stats] cannot get past its first
    select, whatever the engine would have answered: nothing receives on
    [statsCommandC], and [closeC] (the channel [Close] sends on) is neither
    closed nor sent on. *)
Theorem Stats_after_closed_blocks t h answer :
  is_closed t h = true -> Stats_ answer t h = [Blocked].
Proof.
  intros H. apply is_closed_inv in H.
  destruct H as (_ & _ & _ & _ & _ & Hr & _ & Hs).
  unfold Stats_, select, send_case, recv_case. simpl.
  rewrite Hs, Hr. reflexivity.
Qed.

Lemma Stats_after_closed_blocks_witness :
  is_closed torrent7 closed_heap = true
  /\ Stats_ (Some zero_Stats) torrent7 closed_heap = [Blocked].
Proof.
  split; [ reflexivity | ].
  apply (Stats_after_closed_blocks torrent7 closed_heap). reflexivity.
Defined.

(** C9: once the torrent is closed, [NotifyError] returns nil, in the one
    way it can go and whatever the engine would have replied, without
    sending a command; and a receive on the nil channel is ready in no
    heap, so it never delivers. *)
Theorem NotifyError_after_closed t h reply :
  is_closed t h = true ->
  (exists h', NotifyError reply t h = [Finished h' [] None]
              /\ forall r, h' r = h r)
  /\ forall h'', can_recv_ref h'' None = false.
Proof.
  intros H. apply is_closed_inv in H.
  destruct H as (Hc & Hr & _ & _ & _ & _ & Hs & _).
  split; [ | reflexivity ].
  unfold NotifyError, select, send_case, recv_case. simpl.
  rewrite Hs. unfold can_recv. rewrite Hc. simpl. rewrite Hr.
  eexists. split; [ reflexivity | apply update_same ].
Qed.

Lemma NotifyError_after_closed_witness :
  is_closed torrent7 closed_heap = true
  /\ (exists h', NotifyError (Some (Some 9)) torrent7 closed_heap
                 = [Finished h' [] None]
                 /\ forall r, h' r = closed_heap r)
  /\ forall h'', can_recv_ref h'' None = false.
Proof.
  split; [ reflexivity | ].
  apply (NotifyError_after_closed torrent7 closed_heap (Some (Some 9))).
  reflexivity.
Defined.

End PublicFacts.

(** ** The completion signal *)

Module EngineFacts.
Import Chan Public Engine.

#[local] Open Scope nat_scope.

Lemma missing_not_full l : forall i,
  nth i l true = false -> full l = false.
Proof.
  induction l as [ | b r IH ]; intros i H.
  - destruct i; discriminate H.
  - destruct i; simpl in *.
    + rewrite H. reflexivity.
    + rewrite (IH i H). apply andb_false_r.
Qed.

Lemma inv_init t h N :
  can_recv (h (completeC t)) = false -> inv t (init t h N).
Proof.
  intros Hr. unfold can_recv in Hr.
  apply orb_false_elim in Hr. destruct Hr as [Hr Hs].
  apply orb_false_elim in Hr. destruct Hr as [Hc Hq].
  apply Nat.ltb_ge in Hs, Hq.
  unfold init. cbn [have].
  destruct (full (repeat false N)) eqn:Hfull.
  - unfold close_chan. cbn [chans torrent have closes panicked].
    rewrite Hc. unfold inv. cbn [chans torrent have closes panicked].
    unfold update. rewrite Nat.eqb_refl. cbn [queued senders closed].
    rewrite Hfull. repeat split; lia.
  - unfold inv. cbn [chans torrent have closes panicked].
    rewrite Hfull. repeat split; try lia. exact Hc.
Qed.

Lemma inv_step t s e : inv t s -> inv t (step s e).
Proof.
  intros (Ht & Hq & Hs & Hc & Hn & Hp).
  destruct e as [ i | | | | ]; simpl;
    try (unfold inv; repeat split; assumption).
  destruct (nth i (have s) true) eqn:Hbit;
    [ unfold inv; repeat split; assumption | ].
  pose proof (missing_not_full _ _ Hbit) as Hnf.
  rewrite Hnf in Hc, Hn.
  destruct (full (set_bit i (have s))) eqn:Hfull.
  - unfold close_chan; simpl. rewrite Ht, Hc.
    unfold inv; simpl. unfold update. rewrite Nat.eqb_refl. simpl.
    rewrite Hfull, Hn. repeat split; assumption.
  - unfold inv; simpl. rewrite Hfull. repeat split; assumption.
Qed.

Lemma inv_run t es : forall s, inv t s -> inv t (run s es).
Proof.
  induction es as [ | e es IH ]; intros s H; simpl; [ exact H | ].
  apply IH, inv_step, H.
Qed.

Lemma full_step s e : full (have s) = true -> step s e = s.
Proof.
  intros H. destruct e as [ i | | | | ]; simpl; try reflexivity.
  destruct (nth i (have s) true) eqn:Hbit; [ reflexivity | ].
  rewrite (missing_not_full _ _ Hbit) in H. discriminate H.
Qed.

Lemma full_run es : forall s, full (have s) = true -> run s es = s.
Proof.
  induction es as [ | e es IH ]; intros s H; simpl; [ reflexivity | ].
  rewrite (full_step s e H). apply IH, H.
Qed.

(** *** The bitfield against the messages *)

Lemma set_bit_present l : forall i, nth i l true = true -> set_bit i l = l.
Proof.
  induction l as [ | b r IH ]; intros i H; [ destruct i; reflexivity | ].
  destruct i; simpl in *; [ rewrite H; reflexivity | ].
  rewrite (IH i H). reflexivity.
Qed.

Lemma close_chan_have s r : have (close_chan s r) = have s.
Proof. unfold close_chan. destruct (closed (chans s r)); reflexivity. Qed.

Lemma have_step s e :
  have (step s e)
  = match e with
    | PieceVerified i => set_bit i (have s)
    | PieceFailed _ | StartCommand | StopCommand | ResumeTick => have s
    end.
Proof.
  destruct e as [ i | | | | ]; simpl; try reflexivity.
  destruct (nth i (have s) true) eqn:Hbit.
  - symmetry. apply set_bit_present, Hbit.
  - destruct (full (set_bit i (have s)));
      [ apply close_chan_have | reflexivity ].
Qed.

Lemma set_bit_seq (f : nat -> bool) n : forall a j,
  set_bit j (map f (seq a n))
  = map (fun i => f i || (a + j =? i)) (seq a n).
Proof.
  induction n as [ | n IH ]; intros a j; [ destruct j; reflexivity | ].
  destruct j as [ | j ]; cbn [seq map set_bit].
  - rewrite Nat.add_0_r, Nat.eqb_refl, orb_true_r. f_equal.
    apply map_ext_in. intros i Hi. apply in_seq in Hi.
    replace (a =? i) with false by (symmetry; apply Nat.eqb_neq; lia).
    rewrite orb_false_r. reflexivity.
  - replace (a + S j =? a) with false by (symmetry; apply Nat.eqb_neq; lia).
    rewrite orb_false_r. f_equal. rewrite IH.
    apply map_ext. intros i.
    replace (S a + j) with (a + S j) by lia. reflexivity.
Qed.

Lemma bits_snoc N es e :
  bits N (es ++ [e])
  = match e with
    | PieceVerified i => set_bit i (bits N es)
    | PieceFailed _ | StartCommand | StopCommand | ResumeTick => bits N es
    end.
Proof.
  assert (H : bits N (es ++ [e])
              = map (fun i => verified es i || verifies i e) (seq 0 N)).
  { unfold bits, verified. apply map_ext. intros i.
    rewrite existsb_app. simpl. rewrite orb_false_r. reflexivity. }
  rewrite H. unfold bits.
  destruct e as [ j | j | | | ]; cbn [verifies];
    try (apply map_ext; intros x; apply orb_false_r).
  rewrite set_bit_seq. reflexivity.
Qed.

Lemma bits_nil N : bits N [] = repeat false N.
Proof.
  unfold bits, verified. simpl.
  generalize 0. induction N as [ | N IH ]; intros a; simpl;
    [ | rewrite IH ]; reflexivity.
Qed.

Lemma have_run N es : forall s es0,
  have s = bits N es0 -> have (run s es) = bits N (es0 ++ es).
Proof.
  induction es as [ | e es IH ]; intros s es0 H; simpl.
  - rewrite app_nil_r. exact H.
  - replace (es0 ++ e :: es) with ((es0 ++ [e]) ++ es)
      by (rewrite <- app_assoc; reflexivity).
    apply IH. rewrite have_step, bits_snoc, H. reflexivity.
Qed.

Lemma init_have t h N : have (init t h N) = repeat false N.
Proof.
  unfold init. cbn [have].
  destruct (full (repeat false N)); [ apply close_chan_have | reflexivity ].
Qed.

Lemma full_bits N es : full (bits N es) = all_verified N es.
Proof.
  unfold full, bits, all_verified.
  induction (seq 0 N) as [ | i l IH ]; simpl; [ | rewrite IH ]; reflexivity.
Qed.

(** C6: along every run of the controller of a torrent of [N] pieces,
    [NotifyComplete] returns the same channel, and the bitfield holds
    exactly the indices below [N] that a message has reported verified.  A
    receive on the channel is ready exactly when every piece has been
    verified, so never before the torrent reaches 100% and from the very
    message that brings it there; [close] has then run on the channel
    once, and never twice; and once ready the channel stays ready whatever
    happens next. *)
Theorem NotifyComplete_signal t h N es es' :
  can_recv (h (completeC t)) = false ->
  let s := run (init t h N) es in
  NotifyComplete (torrent s) = NotifyComplete t
  /\ have s = bits N es
  /\ signal_ready s = all_verified N es
  /\ closes s = (if all_verified N es then 1 else 0)
  /\ panicked s = false
  /\ implb (signal_ready s) (signal_ready (run s es')) = true.
Proof.
  intros Hr s.
  assert (Hs : inv t s) by (apply inv_run, inv_init; assumption).
  assert (Hready : forall x, inv t x -> signal_ready x = full (have x)).
  { intros x (Ht & Hq & Hsn & Hc & _).
    unfold signal_ready, NotifyComplete, can_recv.
    rewrite Ht, Hq, Hsn, Hc. simpl. rewrite !orb_false_r. reflexivity. }
  assert (Hhave : have s = bits N es).
  { unfold s. rewrite (have_run N es (init t h N) []);
      [ reflexivity | rewrite init_have, bits_nil; reflexivity ]. }
  pose proof Hs as (Ht & _ & _ & _ & Hn & Hp).
  pose proof (full_bits N es) as Hfb. rewrite <- Hhave in Hfb.
  split; [ unfold NotifyComplete; rewrite Ht; reflexivity | ].
  split; [ exact Hhave | ].
  split; [ rewrite (Hready s Hs); exact Hfb | ].
  split; [ rewrite <- Hfb; exact Hn | ].
  split; [ exact Hp | ].
  rewrite (Hready s Hs).
  destruct (full (have s)) eqn:Hfull; [ | reflexivity ].
  rewrite (full_run es' s Hfull), (Hready s Hs), Hfull. reflexivity.
Qed.

Lemma NotifyComplete_signal_witness :
  can_recv (live_heap (completeC torrent7)) = false
  /\ let s := run (init torrent7 live_heap 3)
                 [PieceVerified 0; PieceVerified 1; PieceFailed 2;
                  PieceVerified 1; PieceVerified 2] in
     NotifyComplete (torrent s) = NotifyComplete torrent7
     /\ have s = [true; true; true]
     /\ signal_ready s = true
     /\ closes s = 1
     /\ panicked s = false
     /\ implb (signal_ready s)
              (signal_ready (run s [PieceVerified 2; StopCommand])) = true.
Proof.
  split; [ reflexivity | ].
  exact (NotifyComplete_signal torrent7 live_heap 3
           [PieceVerified 0; PieceVerified 1; PieceFailed 2;
            PieceVerified 1; PieceVerified 2]
           [PieceVerified 2; StopCommand] eq_refl).
Defined.

(** The last missing piece is the message that makes the signal ready. *)
Example three_pieces :
  let s := run (init torrent7 live_heap 3)
             [PieceVerified 0; PieceVerified 1] in
  let s' := step s (PieceVerified 2) in
  signal_ready s = false /\ closes s = 0
  /\ signal_ready s' = true /\ closes s' = 1.
Proof. repeat split. Qed.

(** A failed hash, a piece reported twice and an index out of range bring
    the torrent no nearer to 100%. *)
Example not_yet_complete :
  let s := run (init torrent7 live_heap 3)
             [PieceVerified 0; PieceFailed 1; PieceVerified 0;
              PieceVerified 7; PieceVerified 2] in
  have s = [true; false; true] /\ signal_ready s = false /\ closes s = 0.
Proof. repeat split. Qed.

(** A torrent with no piece is complete as it starts. *)
Example no_pieces :
  let s := init torrent7 live_heap 0 in
  signal_ready s = true /\ closes s = 1 /\ panicked s = false.
Proof. repeat split. Qed.

End EngineFacts.

(** ** The downloader *)

Module DownloaderFacts.
Import Downloader Rounds.

#[local] Open Scope nat_scope.
#[local] Open Scope string_scope.

Lemma first_error_ge events n : forall k j e,
  first_error events n k = Some (j, e) -> k <= j.
Proof.
  induction n as [ | m IH ]; intros k j e H; simpl in H; [ discriminate | ].
  destruct (events k);
    try (apply IH in H; lia).
  injection H as <- _. lia.
Qed.

(** The loop in closed form: it ends at the first round that takes the
    error case, with the value received there, having called [t.Stop()]
    once for every earlier completion without [--seed] and every signal;
    with no such round it is still running. *)
Lemma loop_closed_form seed events fuel : forall k n,
  loop seed events fuel k n =
    match first_error events fuel k with
    | Some (j, e) => (n + stop_rounds seed events (j - k) k, Returns e)
    | None => (n + stop_rounds seed events fuel k, Running)
    end.
Proof.
  induction fuel as [ | f IH ]; intros k n; simpl.
  - f_equal. lia.
  - destruct (events k) eqn:E.
    + assert (Hs : forall m, loop seed events f (S k) m =
                match first_error events f (S k) with
                | Some (j, e) =>
                    (m + stop_rounds seed events (j - S k) (S k), Returns e)
                | None => (m + stop_rounds seed events f (S k), Running)
                end) by (intros; apply IH).
      destruct (first_error events f (S k)) as [ [j e] | ] eqn:F.
      * pose proof (first_error_ge _ _ _ _ _ F) as Hge.
        replace (j - k) with (S (j - S k)) by lia. simpl. rewrite E.
        destruct seed; simpl; rewrite Hs; f_equal; lia.
      * destruct seed; simpl; rewrite Hs; f_equal; lia.
    + rewrite IH.
      destruct (first_error events f (S k)) as [ [j e] | ] eqn:F.
      * pose proof (first_error_ge _ _ _ _ _ F) as Hge.
        replace (j - k) with (S (j - S k)) by lia. simpl. rewrite E.
        f_equal; lia.
      * f_equal; lia.
    + rewrite Nat.sub_diag. simpl. f_equal. lia.
Qed.

Lemma loop_reached_inv w :
  loop_reached w = true ->
  forall fuel, handleDownload w fuel =
    let '(n, e) := loop (seed w) (events w) fuel 0 0 in
    mkRun (Some (resume_name (Name w) (InfoHash w))) true n (returned e) e.
Proof.
  unfold loop_reached, torrent_made, handleDownload. intros H fuel.
  repeat (apply andb_prop in H; destruct H as [H ?]).
  apply negb_true_iff in H. rewrite H.
  destruct (storage_err w); [ discriminate | ].
  destruct (torrent_err w); [ discriminate | ].
  destruct (resume_err w); [ discriminate | ].
  destruct (set_resume_err w); [ discriminate | ].
  destruct (is_magnet (path w)); [ reflexivity | ].
  destruct (open_err w); [ discriminate | reflexivity ].
Qed.

(** The end of a run in closed form: once its set-up calls have succeeded,
    [handleDownload] returns at the first round that receives from
    [NotifyError], with the value received there, and until then it is
    running. *)
Theorem handleDownload_ends w fuel :
  loop_reached w = true ->
  final (handleDownload w fuel) =
    match first_error (events w) fuel 0 with
    | Some (_, e) => Returns e
    | None => Running
    end
  /\ stops (handleDownload w fuel) =
       match first_error (events w) fuel 0 with
       | Some (j, _) => stop_rounds (seed w) (events w) j 0
       | None => stop_rounds (seed w) (events w) fuel 0
       end
  /\ main_exit (final (handleDownload w fuel)) =
       match first_error (events w) fuel 0 with
       | Some (_, None) => Some Exit0
       | Some (_, Some _) => Some ExitFatal
       | None => None
       end.
Proof.
  intros H. rewrite (loop_reached_inv w H fuel), loop_closed_form.
  destruct (first_error (events w) fuel 0) as [ [j e] | ]; simpl.
  - rewrite Nat.sub_0_r. repeat split.
  - repeat split.
Qed.

Lemma handleDownload_ends_witness :
  loop_reached stopped = true
  /\ final (handleDownload stopped 5) = Returns None
  /\ stops (handleDownload stopped 5) = 1
  /\ main_exit (final (handleDownload stopped 5)) = Some Exit0.
Proof.
  split; [ reflexivity | ].
  exact (handleDownload_ends stopped 5 eq_refl).
Defined.





(** A fatal error received from [NotifyError] is what [handleDownload]
    returns, whether or not the torrent had completed. *)
Example fatal_error_returned :
  let w := mkWorld "ubuntu.torrent" true None None None "ubuntu.iso" "00"
             None None
             (fun k => match k with
                       | 0 => Signal
                       | _ => Error (Some "storage: disk full")
                       end) in
  final (handleDownload w 4) = Returns (Some "storage: disk full")
  /\ main_exit (final (handleDownload w 4)) = Some ExitFatal.
Proof. split; reflexivity. Qed.

Lemma sanitize_length s : String.length (sanitize s) = String.length s.
Proof. induction s as [ | c r IH ]; simpl; congruence. Qed.

Lemma append_same_length a : forall b r r',
  String.length a = String.length b -> a ++ r = b ++ r' -> a = b.
Proof.
  induction a as [ | c a IH ]; intros [ | d b ] r r' Hl H;
    simpl in *; try discriminate; [ reflexivity | ].
  injection H as -> H. f_equal. apply (IH b r r'); [ lia | exact H ].
Qed.

Lemma torrent_made_inv w fuel :
  torrent_made w = true ->
  resume_file (handleDownload w fuel)
  = Some (resume_name (Name w) (InfoHash w)).
Proof.
  unfold torrent_made, handleDownload. intros H.
  repeat (apply andb_prop in H; destruct H as [H ?]).
  apply negb_true_iff in H. rewrite H.
  destruct (storage_err w); [ discriminate | ].
  destruct (torrent_err w); [ discriminate | ].
  assert (E : (if is_magnet (path w) then None else open_err w) = None).
  { destruct (is_magnet (path w)); [ reflexivity | ].
    destruct (open_err w); [ discriminate | reflexivity ]. }
  rewrite E.
  destruct (resume_err w); [ reflexivity | ].
  destruct (set_resume_err w); [ reflexivity | ].
  destruct (loop (seed w) (events w) fuel 0 0). reflexivity.
Qed.

(** C8 as stated fails: for a torrent named "a/b" the file that
    [handleDownload] asks for keeps the path separator, so it is not the
    name built from the sanitised torrent name. *)
Lemma resume_name_keeps_separator :
  resume_file (handleDownload nested 0)
  = Some "a/b.0123456789abcdef0123456789abcdef01234567.resume"
  /\ spec_resume_name (Name nested) (InfoHash nested)
     = "a_b.0123456789abcdef0123456789abcdef01234567.resume"
  /\ resume_file (handleDownload nested 0)
     <> Some (spec_resume_name (Name nested) (InfoHash nested)).
Proof. repeat split. vm_compute. discriminate. Qed.

(** C8, amended: once the torrent has been made, the resume record is kept
    in the file named by the torrent name as it is, a dot, the infohash in
    hex and ".resume"; nothing in the name is replaced, so this is the name
    the specification asks for exactly when the torrent name holds no path
    separator and no control character. *)
Theorem resume_file_name w fuel :
  torrent_made w = true ->
  resume_file (handleDownload w fuel)
  = Some (Name w ++ "." ++ InfoHash w ++ ".resume")
  /\ (resume_name (Name w) (InfoHash w)
      = spec_resume_name (Name w) (InfoHash w)
      <-> sanitize (Name w) = Name w).
Proof.
  intros H. split; [ apply torrent_made_inv, H | ].
  unfold resume_name, spec_resume_name. split.
  - intros E. symmetry.
    apply (append_same_length _ _ _ _ (eq_sym (sanitize_length _)) E).
  - intros ->. reflexivity.
Qed.

Lemma resume_file_name_witness :
  torrent_made stopped = true
  /\ resume_file (handleDownload stopped 5)
     = Some "ubuntu.iso.0123456789abcdef0123456789abcdef01234567.resume"
  /\ (resume_name (Name stopped) (InfoHash stopped)
      = spec_resume_name (Name stopped) (InfoHash stopped)
      <-> sanitize (Name stopped) = Name stopped).
Proof.
  split; [ reflexivity | ].
  exact (resume_file_name stopped 5 eq_refl).
Defined.

End DownloaderFacts.

(** ** Torrent files and the piece table *)

Module TorrentFileFacts.
Import Mach Metainfo TorrentFile.

Section Generic.

Variable Open : string -> result (list byte).
Variable DecodeTorrent : list byte -> result TorrentDict.
Variable Decode : list byte -> result InfoDict.

(** [New] never returns a nil torrent with a nil error.  It returns a nil
    torrent with the error when the file cannot be opened, when the file
    does not decode, and ("no info dict in torrent file") when the decoded
    [RawInfo] is empty; but when [NewInfo] rejects the info dictionary it
    returns the error together with a torrent that is not nil and whose
    [Info] is nil. *)
Theorem New_errors path :
  match New Open DecodeTorrent Decode path with
  | (None, None) => False
  | (None, Some e) =>
      Open path = Err e
      \/ (exists c, Open path = Ok c /\ DecodeTorrent c = Err e)
      \/ (exists c d, Open path = Ok c /\ DecodeTorrent c = Ok d
                      /\ dict_RawInfo d = []
                      /\ e = "no info dict in torrent file"%string)
  | (Some t, Some e) =>
      Info t = None /\ RawInfo t <> []
      /\ NewInfo Decode (RawInfo t) = Err e
  | (Some t, None) => Info t <> None
  end.
Proof.
  unfold New.
  destruct (Open path) as [c | e] eqn:EO; [ | left; reflexivity ].
  destruct (DecodeTorrent c) as [d | e] eqn:ED;
    [ | right; left; exists c; split; [ reflexivity | exact ED ] ].
  destruct (dict_RawInfo d) as [ | x r ] eqn:ER; simpl.
  - right; right. exists c, d. repeat split; assumption.
  - destruct (NewInfo Decode (x :: r)) as [i | e] eqn:EN; simpl.
    + discriminate.
    + rewrite ER. repeat split; [ discriminate | exact EN ].
Qed.

(** When [New] returns no error, the torrent carries an [Info] built from
    the raw bytes of the "info" value of the file: [Info.Raw] is
    [RawInfo], which is not empty, and the infohash is the SHA-1 digest of
    [RawInfo]. *)
Theorem New_infohash path ot :
  New Open DecodeTorrent Decode path = (ot, None) ->
  exists t i,
    ot = Some t /\ Info t = Some i
    /\ RawInfo t <> []
    /\ Raw i = RawInfo t
    /\ Hash i = SHA1.Sum (RawInfo t)
    /\ NewInfo Decode (RawInfo t) = Ok i.
Proof.
  unfold New.
  destruct (Open path) as [c | e]; [ | discriminate ].
  destruct (DecodeTorrent c) as [d | e]; [ | discriminate ].
  destruct (dict_RawInfo d) as [ | x r ] eqn:ER; simpl; [ discriminate | ].
  destruct (NewInfo Decode (x :: r)) as [i | e] eqn:EN; [ | discriminate ].
  intros H. injection H as <-.
  exists (with_info d (Some i)), i. simpl. rewrite ER.
  pose proof (MetainfoFacts.NewInfo_computed _ _ _ EN) as (HR & HH & _).
  assert (E : copy (repeat x00 20) (SHA1.Sum (x :: r)) = SHA1.Sum (x :: r))
    by (apply MetainfoFacts.copy_full; rewrite repeat_length;
        apply SHA1Facts.Sum_length).
  rewrite E in HH.
  repeat split; try assumption; discriminate.
Qed.

End Generic.

Lemma New_infohash_witness :
  exists ot,
    New files BencodeDecodeTorrent BencodeDecode "a.torrent" = (ot, None)
    /\ exists t i,
         ot = Some t /\ Info t = Some i
         /\ RawInfo t <> []
         /\ Raw i = RawInfo t
         /\ Hash i = SHA1.Sum (RawInfo t)
         /\ NewInfo BencodeDecode (RawInfo t) = Ok i.
Proof.
  eexists. split; [ vm_compute; reflexivity | ].
  apply (New_infohash files BencodeDecodeTorrent BencodeDecode "a.torrent").
  vm_compute. reflexivity.
Defined.

(** The three error paths and the half-built torrent, on the sample
    files. *)
Example New_missing :
  New files BencodeDecodeTorrent BencodeDecode "none.torrent"
  = (None, Some "open: no such file or directory"%string).
Proof. reflexivity. Qed.

Example New_no_info :
  New files BencodeDecodeTorrent BencodeDecode "empty.torrent"
  = (None, Some "no info dict in torrent file"%string).
Proof. vm_compute. reflexivity. Qed.

Example New_bad_info :
  exists t,
    New files BencodeDecodeTorrent BencodeDecode "bad.torrent"
    = (Some t, Some "bencode: cannot unmarshal"%string)
    /\ Info t = None.
Proof. eexists. split; vm_compute; reflexivity. Qed.

Lemma firstn_plus {A} a b : forall l : list A,
  firstn (a + b) l = firstn a l ++ firstn b (skipn a l).
Proof.
  induction a as [ | a IH ]; intros l; simpl; [ reflexivity | ].
  destruct l as [ | x l ]; simpl.
  - destruct b; reflexivity.
  - f_equal. apply IH.
Qed.

Lemma digests_tile {A} (l : list A) n :
  concat (map (fun k => firstn 20 (skipn (20 * k) l)) (seq 0 n))
  = firstn (20 * n) l.
Proof.
  induction n as [ | n IH ]; [ reflexivity | ].
  rewrite seq_S, map_app, concat_app, IH.
  cbn [map concat plus]. rewrite app_nil_r.
  replace (20 * S n)%nat with (20 * n + 20)%nat by lia.
  symmetry. apply firstn_plus.
Qed.

Lemma PieceHash_below i k :
  NumPieces i = wrap_u32 (Z.of_nat (length (Pieces i))) / 20 ->
  0 <= k < NumPieces i ->
  PieceHash i k = Return (digest_at i k).
Proof.
  intros HN Hk.
  pose proof (MetainfoFacts.NumPieces_bounds i HN)
    as (H0 & [Hlo _] & Hle & Hlt).
  unfold PieceHash, SHA1.Size.
  replace (k >=? NumPieces i) with false
    by (symmetry; rewrite Z.geb_leb; apply Z.leb_gt; lia).
  unfold wrap_u32 in *.
  rewrite (Z.mod_small (k * 20)) by lia.
  rewrite (Z.mod_small (k * 20 + 20)) by lia.
  unfold slice.
  replace (k * 20 <=? k * 20 + 20) with true
    by (symmetry; apply Z.leb_le; lia).
  replace (k * 20 + 20 <=? Z.of_nat (length (Pieces i))) with true
    by (symmetry; apply Z.leb_le; lia).
  simpl andb. cbv iota. unfold digest_at.
  replace (k * 20 + 20 - k * 20) with 20 by lia.
  replace (k * 20) with (20 * k) by lia. reflexivity.
Qed.

(** The piece table is the digests in order: for every [Info] returned by
    [NewInfo], [PieceHash] returns at each index below [NumPieces], and
    [Pieces] is the concatenation of those digests, each of 20 bytes,
    followed by the bytes after [20 * NumPieces] (none when the length of
    [Pieces] is [20 * NumPieces]). *)
Theorem hashes_tile_Pieces Decode b i :
  NewInfo Decode b = Ok i ->
  exists ds,
    hashes i = map Return ds
    /\ length ds = Z.to_nat (NumPieces i)
    /\ Forall (fun d => length d = 20%nat) ds
    /\ Pieces i
       = concat ds ++ skipn (20 * Z.to_nat (NumPieces i)) (Pieces i).
Proof.
  intros H. apply MetainfoFacts.NewInfo_computed in H.
  destruct H as (_ & _ & _ & HN & _).
  pose proof (MetainfoFacts.NumPieces_bounds i HN)
    as (H0 & [Hlo _] & Hle & Hlt).
  set (n := Z.to_nat (NumPieces i)).
  exists (map (fun k => firstn 20 (skipn (20 * k) (Pieces i))) (seq 0 n)).
  split; [ | split; [ | split ] ].
  - unfold hashes. fold n. rewrite map_map. apply map_ext_in.
    intros k Hk. apply in_seq in Hk.
    rewrite (PieceHash_below i (Z.of_nat k) HN) by lia.
    unfold digest_at. do 3 f_equal. lia.
  - rewrite length_map, length_seq. reflexivity.
  - apply Forall_forall. intros d Hd. apply in_map_iff in Hd.
    destruct Hd as (k & <- & Hk). apply in_seq in Hk.
    rewrite length_firstn, length_skipn. lia.
  - rewrite digests_tile. symmetry. apply firstn_skipn.
Qed.

Lemma hashes_tile_Pieces_witness :
  exists i, NewInfo BencodeDecode sample = Ok i
    /\ exists ds,
         hashes i = map Return ds
         /\ length ds = Z.to_nat (NumPieces i)
         /\ Forall (fun d => length d = 20%nat) ds
         /\ Pieces i
            = concat ds ++ skipn (20 * Z.to_nat (NumPieces i)) (Pieces i).
Proof.
  eexists. split; [ vm_compute; reflexivity | ].
  apply (hashes_tile_Pieces BencodeDecode sample).
  vm_compute. reflexivity.
Defined.

End TorrentFileFacts.

(** ** The public methods in any state *)

Module OutcomeFacts.
Import Chan Public Engine Outcomes.

#[local] Open Scope nat_scope.

Lemma update_other (h : heap) r c r' : r' <> r -> update h r c r' = h r'.
Proof.
  intros H. unfold update.
  destruct (r' =? r) eqn:E; [ apply Nat.eqb_eq in E; contradiction | ].
  reflexivity.
Qed.

Lemma do_call_command c t h :
  do_call c t h = command (channel_of c t) t h.
Proof. destruct c; reflexivity. Qed.

(** Every way a call of [Start], [Stop] or [Close] can go, in any state of
    the channels.  It blocks only while the controller is not receiving and
    the torrent is not closed; it panics only if its command channel has
    been closed; when it returns it has either sent exactly its one
    command, touching no other channel, or sent nothing because [closedC]
    was ready. *)
Theorem do_call_outcomes c t h x :
  In x (do_call c t h) ->
  match x with
  | Blocked =>
      can_send (h (channel_of c t)) = false
      /\ can_recv (h (closedC t)) = false
  | Panicked _ => closed (h (channel_of c t)) = true
  | Finished h' sent _ =>
      (sent = [channel_of c t]
       /\ can_send (h (channel_of c t)) = true
       /\ closed (h (channel_of c t)) = false
       /\ forall r, r <> channel_of c t -> h' r = h r)
      \/ (sent = []
          /\ can_recv (h (closedC t)) = true
          /\ forall r, r <> closedC t -> h' r = h r)
  end.
Proof.
  rewrite do_call_command. set (cmdC := channel_of c t).
  unfold command, select, send_case, recv_case. simpl.
  destruct (can_send (h cmdC)) eqn:Es;
    destruct (can_recv (h (closedC t))) eqn:Er;
    destruct (closed (h cmdC)) eqn:Ec; simpl;
    intros H;
    repeat match goal with
           | H : _ \/ _ |- _ => destruct H as [H | H]
           | H : False |- _ => contradiction
           | H : _ = x |- _ => subst x
           end;
    try reflexivity; try (split; reflexivity).
  all: try (left; repeat split; intros; apply update_other; assumption).
  all: try (right; repeat split; intros; apply update_other; assumption).
  all: unfold can_send in Es; rewrite Ec in Es; discriminate Es.
Qed.

Lemma do_call_outcomes_witness :
  In (Finished (update live_heap 3 (after_send (live_heap 3))) [3] tt)
     (do_call CallClose torrent7 live_heap)
  /\ (([3] = [channel_of CallClose torrent7]
       /\ can_send (live_heap (channel_of CallClose torrent7)) = true
       /\ closed (live_heap (channel_of CallClose torrent7)) = false
       /\ forall r, r <> channel_of CallClose torrent7 ->
            update live_heap 3 (after_send (live_heap 3)) r = live_heap r)
      \/ ([3] = []
          /\ can_recv (live_heap (closedC torrent7)) = true
          /\ forall r, r <> closedC torrent7 ->
               update live_heap 3 (after_send (live_heap 3)) r
               = live_heap r)).
Proof.
  split; [ left; reflexivity | ].
  apply (do_call_outcomes CallClose torrent7 live_heap
           (Finished (update live_heap 3 (after_send (live_heap 3)))
                     [3] tt)).
  left. reflexivity.
Defined.

(** A call of [Start], [Stop] or [Close] can block exactly when the
    controller is not receiving on its command channel and [closedC] is not
    ready; it then has no other way to go. *)
Theorem do_call_blocks_iff c t h :
  In Blocked (do_call c t h)
  <-> (can_send (h (channel_of c t)) = false
       /\ can_recv (h (closedC t)) = false).
Proof.
  rewrite do_call_command. set (cmdC := channel_of c t).
  unfold command, select, send_case, recv_case. simpl.
  destruct (can_send (h cmdC)) eqn:Es;
    destruct (can_recv (h (closedC t))) eqn:Er;
    destruct (closed (h cmdC)) eqn:Ec; simpl; split;
    try (intros [H | H]); try (intros [H H']);
    try discriminate; try contradiction; try tauto;
    repeat match goal with
           | H : _ \/ _ |- _ => destruct H as [H | H]
           end;
    try discriminate; try contradiction; auto.
Qed.

(** Every way [NotifyError] can return.  It returns the channel the engine
    replied with (which may be nil) after sending its one command, or nil
    without sending anything because [closedC] was ready; it never returns
    a channel of its own making. *)
Theorem NotifyError_outcomes reply t h h' sent r :
  In (Finished h' sent r) (NotifyError reply t h) ->
  (sent = [notifyErrorCommandC t]
   /\ reply = Some r
   /\ can_send (h (notifyErrorCommandC t)) = true
   /\ closed (h (notifyErrorCommandC t)) = false)
  \/ (sent = [] /\ r = None /\ can_recv (h (closedC t)) = true).
Proof.
  unfold NotifyError, select, send_case, recv_case. simpl.
  destruct (can_send (h (notifyErrorCommandC t))) eqn:Es;
    destruct (can_recv (h (closedC t))) eqn:Er;
    destruct (closed (h (notifyErrorCommandC t))) eqn:Ec;
    destruct reply as [ e | ]; simpl; intros H;
    repeat match goal with
           | H : _ \/ _ |- _ => destruct H as [H | H]
           | H : False |- _ => contradiction
           | H : Finished _ _ _ = Finished _ _ _ |- _ =>
               injection H as <- <- <-
           | H : Blocked = Finished _ _ _ |- _ => discriminate H
           | H : Panicked _ = Finished _ _ _ |- _ => discriminate H
           end;
    try (left; repeat split; reflexivity);
    try (right; repeat split; reflexivity).
Qed.

Lemma NotifyError_outcomes_witness :
  In (Finished (update live_heap 6 (after_send (live_heap 6))) [6]
               (Some 9))
     (NotifyError (Some (Some 9)) torrent7 live_heap)
  /\ (([6] = [notifyErrorCommandC torrent7]
       /\ Some (Some 9) = Some (Some 9)
       /\ can_send (live_heap (notifyErrorCommandC torrent7)) = true
       /\ closed (live_heap (notifyErrorCommandC torrent7)) = false)
      \/ ([6] = [] /\ Some 9 = None
          /\ can_recv (live_heap (closedC torrent7)) = true)).
Proof.
  split; [ left; reflexivity | ].
  apply (NotifyError_outcomes (Some (Some 9)) torrent7 live_heap
           (update live_heap 6 (after_send (live_heap 6))) [6] (Some 9)).
  left. reflexivity.
Defined.

Lemma can_recv_after_send c :
  0 < receivers c -> can_recv (after_send c) = can_recv c.
Proof.
  intros H. unfold after_send. apply Nat.ltb_lt in H. rewrite H.
  reflexivity.
Qed.

(** While the controller is receiving requests and nothing is ready on
    [closeC], [Stats] goes one way only: it sends its one request and
    returns what the engine answers; if the engine takes the request and
    never answers, it blocks. *)
Theorem Stats_when_live answer t h :
  closed (h (statsCommandC t)) = false ->
  0 < receivers (h (statsCommandC t)) ->
  can_recv (h (closeC t)) = false ->
  match answer with
  | Some s =>
      exists h', Stats_ answer t h = [Finished h' [statsCommandC t] s]
  | None => Stats_ answer t h = [Blocked]
  end.
Proof.
  intros Hc Hr Hn.
  assert (Hs : can_send (h (statsCommandC t)) = true).
  { unfold can_send. apply Nat.ltb_lt in Hr. rewrite Hc, Hr. reflexivity. }
  assert (Hn' : can_recv (update h (statsCommandC t)
                            (after_send (h (statsCommandC t))) (closeC t))
                = false).
  { unfold update. destruct (closeC t =? statsCommandC t) eqn:E.
    - apply Nat.eqb_eq in E. rewrite can_recv_after_send by exact Hr.
      rewrite <- E. exact Hn.
    - exact Hn. }
  unfold Stats_, bind, select, send_case, recv_case. simpl.
  rewrite Hs, Hn, Hc. simpl. rewrite Hn'.
  destruct answer as [ s | ]; simpl; [ eexists | ]; reflexivity.
Qed.

Lemma Stats_when_live_witness :
  closed (live_heap (statsCommandC torrent7)) = false
  /\ 0 < receivers (live_heap (statsCommandC torrent7))
  /\ can_recv (live_heap (closeC torrent7)) = false
  /\ exists h', Stats_ (Some (mkStats 7 0 3 1 2 3)) torrent7 live_heap
                = [Finished h' [statsCommandC torrent7]
                            (mkStats 7 0 3 1 2 3)].
Proof.
  split; [ reflexivity | ]. split; [ vm_compute; lia | ].
  split; [ reflexivity | ].
  apply (Stats_when_live (Some (mkStats 7 0 3 1 2 3)) torrent7 live_heap);
    [ reflexivity | vm_compute; lia | reflexivity ].
Defined.

(** [Stats] returns either the engine's answer to the request it sent, or
    the zero value. *)
Theorem Stats_result answer t h h' sent s :
  In (Finished h' sent s) (Stats_ answer t h) ->
  (answer = Some s /\ sent = [statsCommandC t]) \/ s = zero_Stats.
Proof.
  unfold Stats_, bind, select, send_case, recv_case. simpl.
  destruct (can_send (h (statsCommandC t)));
    destruct (can_recv (h (closeC t)));
    destruct (closed (h (statsCommandC t)));
    destruct answer as [ a | ]; simpl;
    repeat match goal with
           | |- context [ can_recv ?c ] =>
               lazymatch c with
               | h _ => fail
               | _ => destruct (can_recv c); simpl
               end
           end;
    intros H;
    repeat match goal with
           | H : _ \/ _ |- _ => destruct H as [H | H]
           | H : False |- _ => contradiction
           | H : Finished _ _ _ = Finished _ _ _ |- _ =>
               injection H as <- <- <-
           | H : Blocked = Finished _ _ _ |- _ => discriminate H
           | H : Panicked _ = Finished _ _ _ |- _ => discriminate H
           end;
    try (left; split; reflexivity); try (right; reflexivity).
Qed.

Lemma Stats_result_witness :
  In (Finished (update live_heap 7 (after_send (live_heap 7))) [7]
               (mkStats 7 0 3 1 2 3))
     (Stats_ (Some (mkStats 7 0 3 1 2 3)) torrent7 live_heap)
  /\ ((Some (mkStats 7 0 3 1 2 3) = Some (mkStats 7 0 3 1 2 3)
       /\ [7] = [statsCommandC torrent7])
      \/ mkStats 7 0 3 1 2 3 = zero_Stats).
Proof.
  split; [ left; reflexivity | ].
  apply (Stats_result (Some (mkStats 7 0 3 1 2 3)) torrent7 live_heap
           (update live_heap 7 (after_send (live_heap 7))) [7]).
  left. reflexivity.
Defined.

(** [Stats] takes [Close] commands away from the controller: while the
    controller is not receiving requests and two goroutines wait in
    [Close] to send on [closeC], [Stats] receives both of their commands,
    one in each select, and returns the zero value; the two [Close] calls
    return although the controller has seen neither command. *)
Theorem Stats_takes_Close answer t h :
  can_send (h (statsCommandC t)) = false ->
  closed (h (closeC t)) = false ->
  queued (h (closeC t)) = 0 ->
  2 <= senders (h (closeC t)) ->
  exists h',
    Stats_ answer t h = [Finished h' [] zero_Stats]
    /\ senders (h' (closeC t)) = senders (h (closeC t)) - 2
    /\ forall r, r <> closeC t -> h' r = h r.
Proof.
  intros Hs Hc Hq Hn.
  set (c := h (closeC t)) in *.
  assert (Hr : can_recv c = true).
  { unfold can_recv. rewrite Hc, Hq.
    replace (0 <? senders c) with true
      by (symmetry; apply Nat.ltb_lt; lia). reflexivity. }
  assert (E1 : after_recv c
               = mkChan (cap c) (queued c) (closed c) (receivers c)
                        (pred (senders c))).
  { unfold after_recv. rewrite Hq.
    replace (0 <? senders c) with true
      by (symmetry; apply Nat.ltb_lt; lia). reflexivity. }
  set (c1 := after_recv c) in *.
  assert (Hr1 : can_recv c1 = true).
  { rewrite E1. unfold can_recv. simpl. rewrite Hc, Hq.
    replace (0 <? pred (senders c)) with true
      by (symmetry; apply Nat.ltb_lt; lia). reflexivity. }
  assert (E2 : senders (after_recv c1) = senders c - 2).
  { unfold after_recv. rewrite E1. simpl. rewrite Hq.
    replace (0 <? pred (senders c)) with true
      by (symmetry; apply Nat.ltb_lt; lia). simpl. lia. }
  unfold Stats_, bind, select, send_case, recv_case. simpl.
  rewrite Hs. fold c. rewrite Hr. simpl. fold c1.
  assert (L : update h (closeC t) c1 (closeC t) = c1)
    by (unfold update; rewrite Nat.eqb_refl; reflexivity).
  rewrite L, Hr1. simpl.
  eexists. split; [ reflexivity | ]. split.
  - unfold update at 1. rewrite Nat.eqb_refl. exact E2.
  - intros r Hne. rewrite !update_other by exact Hne. reflexivity.
Qed.

Lemma Stats_takes_Close_witness :
  can_send (busy_heap (statsCommandC torrent7)) = false
  /\ closed (busy_heap (closeC torrent7)) = false
  /\ queued (busy_heap (closeC torrent7)) = 0
  /\ 2 <= senders (busy_heap (closeC torrent7))
  /\ exists h',
       Stats_ None torrent7 busy_heap = [Finished h' [] zero_Stats]
       /\ senders (h' (closeC torrent7))
          = senders (busy_heap (closeC torrent7)) - 2
       /\ forall r, r <> closeC torrent7 -> h' r = busy_heap r.
Proof.
  split; [ reflexivity | ]. split; [ reflexivity | ].
  split; [ reflexivity | ]. split; [ vm_compute; lia | ].
  apply (Stats_takes_Close None torrent7 busy_heap);
    [ reflexivity | reflexivity | reflexivity | vm_compute; lia ].
Defined.

Lemma receiving_step c t h k :
  receiving t h (S k) ->
  do_call c t h
  = [Finished (update h (channel_of c t) (after_send (h (channel_of c t))))
              [channel_of c t] tt]
  /\ receiving t
       (update h (channel_of c t) (after_send (h (channel_of c t)))) k.
Proof.
  intros [Hc Hn]. rewrite do_call_command.
  set (cmdC := channel_of c t).
  destruct (Hc c) as [Hcl Hrc]. fold cmdC in Hcl, Hrc.
  assert (Hpos : 0 < receivers (h cmdC)) by lia.
  assert (Hs : can_send (h cmdC) = true).
  { unfold can_send. apply Nat.ltb_lt in Hpos. rewrite Hcl, Hpos.
    reflexivity. }
  split.
  - unfold command, select, send_case, recv_case. simpl.
    rewrite Hs, Hn, Hcl. reflexivity.
  - assert (Ha : after_send (h cmdC)
                 = mkChan (cap (h cmdC)) (queued (h cmdC)) (closed (h cmdC))
                          (pred (receivers (h cmdC))) (senders (h cmdC))).
    { unfold after_send. apply Nat.ltb_lt in Hpos. rewrite Hpos.
      reflexivity. }
    split.
    + intros c'. unfold update.
      destruct (channel_of c' t =? cmdC) eqn:E.
      * rewrite Ha. simpl. split; [ exact Hcl | lia ].
      * destruct (Hc c') as [H1 H2]. split; [ exact H1 | lia ].
    + unfold update. destruct (closedC t =? cmdC) eqn:E.
      * apply Nat.eqb_eq in E. rewrite can_recv_after_send by exact Hpos.
        rewrite <- E. exact Hn.
      * exact Hn.
Qed.

(** While the torrent is not closed and the controller stands ready to
    receive, a sequence of calls to [Start], [Stop] and [Close] goes one
    way only: every call hands over its command, and the commands reach
    the controller in the order of the calls. *)
Theorem calls_when_receiving t cs : forall h sent,
  receiving t h (length cs) ->
  exists h',
    do_calls cs t h sent
    = [Finished h' (sent ++ map (fun c => channel_of c t) cs) tt].
Proof.
  induction cs as [ | c cs IH ]; intros h sent H; simpl.
  - exists h. rewrite app_nil_r. reflexivity.
  - destruct (receiving_step c t h (length cs) H) as [E H'].
    rewrite E. unfold bind. simpl. rewrite app_nil_r.
    destruct (IH _ (sent ++ [channel_of c t]) H') as [h' E'].
    exists h'. rewrite E', <- app_assoc. reflexivity.
Qed.

Lemma calls_when_receiving_witness :
  receiving torrent7 ready_heap 3
  /\ exists h',
       do_calls [CallStart; CallStop; CallClose] torrent7 ready_heap []
       = [Finished h' [1; 2; 3] tt].
Proof.
  assert (R : receiving torrent7 ready_heap 3).
  { split; [ intros [ | | ]; split; simpl; (reflexivity || lia)
           | reflexivity ]. }
  split; [ exact R | ].
  exact (calls_when_receiving torrent7 [CallStart; CallStop; CallClose]
           ready_heap [] R).
Defined.

End OutcomeFacts.

(** ** The downloader around its loop *)

Module SetupFacts.
Import Downloader Rounds Setup.

#[local] Open Scope nat_scope.
#[local] Open Scope string_scope.

Lemma loop_not_fatal seed events fuel : forall k n m,
  snd (loop seed events fuel k n) <> Fatal m.
Proof.
  induction fuel as [ | f IH ]; intros k n m; simpl; [ discriminate | ].
  destruct (events k); [ destruct seed; simpl | | simpl; discriminate ];
    apply IH.
Qed.

(** When [handleDownload] ends in [log.Fatal], a set-up call has failed and
    the message is the error of the first one that did; the torrent was
    never started or stopped, and the deferred [t.Close()] has not run,
    also when the torrent had already been made. *)
Theorem fatal_is_setup w fuel m :
  final (handleDownload w fuel) = Fatal m ->
  path w <> ""
  /\ setup_error w = Some m
  /\ started (handleDownload w fuel) = false
  /\ stops (handleDownload w fuel) = 0
  /\ deferred_close (handleDownload w fuel) = false.
Proof.
  unfold handleDownload, setup_error.
  destruct (String.eqb (path w) "") eqn:Ep; simpl; [ discriminate | ].
  apply String.eqb_neq in Ep.
  destruct (storage_err w); simpl;
    [ intros H; injection H as ->; repeat split; assumption | ].
  destruct (if is_magnet (path w) then None else open_err w); simpl;
    [ intros H; injection H as ->; repeat split; assumption | ].
  destruct (torrent_err w); simpl;
    [ intros H; injection H as ->; repeat split; assumption | ].
  destruct (resume_err w); simpl;
    [ intros H; injection H as ->; repeat split; assumption | ].
  destruct (set_resume_err w); simpl;
    [ intros H; injection H as ->; repeat split; assumption | ].
  pose proof (loop_not_fatal (seed w) (events w) fuel 0 0 m) as Hl.
  destruct (loop (seed w) (events w) fuel 0 0) as [n e]. simpl in *.
  intros H. contradiction.
Qed.

Lemma fatal_is_setup_witness :
  final (handleDownload no_resume 4)
  = Fatal "open ubuntu.iso.resume: permission denied"
  /\ path no_resume <> ""
  /\ setup_error no_resume
     = Some "open ubuntu.iso.resume: permission denied"
  /\ started (handleDownload no_resume 4) = false
  /\ stops (handleDownload no_resume 4) = 0
  /\ deferred_close (handleDownload no_resume 4) = false.
Proof.
  split; [ reflexivity | ].
  apply (fatal_is_setup no_resume 4
           "open ubuntu.iso.resume: permission denied").
  reflexivity.
Defined.

(** [t.Start()] is called exactly when the argument is not empty and every
    set-up call succeeds, and the deferred [t.Close()] has run exactly when
    the torrent was started and the function has returned; the early return
    for a missing argument closes nothing. *)
Theorem started_and_closed w fuel :
  (started (handleDownload w fuel) = true
   <-> (path w <> "" /\ setup_error w = None))
  /\ (deferred_close (handleDownload w fuel) = true
      <-> (started (handleDownload w fuel) = true
           /\ exists e, final (handleDownload w fuel) = Returns e)).
Proof.
  unfold handleDownload, setup_error.
  destruct (String.eqb (path w) "") eqn:Ep; simpl.
  - apply String.eqb_eq in Ep.
    split; split; try discriminate; intros [H _]; try discriminate.
    contradiction.
  - apply String.eqb_neq in Ep.
    destruct (storage_err w); simpl;
      [ split; split; try discriminate; intros [H H']; discriminate | ].
    destruct (if is_magnet (path w) then None else open_err w); simpl;
      [ split; split; try discriminate; intros [H H']; discriminate | ].
    destruct (torrent_err w); simpl;
      [ split; split; try discriminate; intros [H H']; discriminate | ].
    destruct (resume_err w); simpl;
      [ split; split; try discriminate; intros [H H']; discriminate | ].
    destruct (set_resume_err w); simpl;
      [ split; split; try discriminate; intros [H H']; discriminate | ].
    destruct (loop (seed w) (events w) fuel 0 0) as [n e]. simpl.
    split; [ split; auto | ].
    destruct e; simpl; split; try discriminate; auto.
    + intros _. split; [ reflexivity | eexists; reflexivity ].
    + intros [_ [e H]]. discriminate H.
    + intros [_ [e H]]. discriminate H.
Qed.

Lemma no_error_rounds events : forall n k,
  (forall j e, events j <> Error e) ->
  first_error events n k = None.
Proof.
  induction n as [ | n IH ]; intros k H; simpl; [ reflexivity | ].
  destruct (events k) eqn:E; try (apply IH, H).
  exfalso. apply (H k err), E.
Qed.

Lemma stop_rounds_seed events : forall n k,
  (forall j e, events j <> Error e) ->
  stop_rounds true events n k = signal_rounds events n k
  /\ stop_rounds false events n k = n.
Proof.
  induction n as [ | n IH ]; intros k H; simpl; [ split; reflexivity | ].
  destruct (IH (S k) H) as [-> ->].
  destruct (events k) eqn:E; simpl; try (split; reflexivity).
  exfalso. apply (H k err), E.
Qed.

(** A signal does not end the downloader, and neither does completion:
    while no round receives from [NotifyError], [handleDownload] keeps
    running however many rounds go by.  With [--seed] it has called
    [t.Stop()] once for every signal; without it, once in every round. *)
Theorem only_NotifyError_ends w fuel :
  loop_reached w = true ->
  (forall j e, events w j <> Error e) ->
  final (handleDownload w fuel) = Running
  /\ deferred_close (handleDownload w fuel) = false
  /\ stops (handleDownload w fuel) =
       if seed w then signal_rounds (events w) fuel 0 else fuel.
Proof.
  intros H Hn.
  rewrite (DownloaderFacts.loop_reached_inv w H fuel).
  rewrite DownloaderFacts.loop_closed_form.
  rewrite no_error_rounds by exact Hn.
  simpl. repeat split.
  destruct (stop_rounds_seed (events w) fuel 0 Hn) as [Hs Hf].
  destruct (seed w); assumption.
Qed.

Lemma only_NotifyError_ends_witness :
  loop_reached interrupted = true
  /\ (forall j e, events interrupted j <> Error e)
  /\ final (handleDownload interrupted 6) = Running
  /\ deferred_close (handleDownload interrupted 6) = false
  /\ stops (handleDownload interrupted 6) = 3.
Proof.
  assert (H : forall j e, events interrupted j <> Error e)
    by (intros j e; simpl; destruct (Nat.even j); discriminate).
  split; [ reflexivity | ]. split; [ exact H | ].
  exact (only_NotifyError_ends interrupted 6 eq_refl H).
Defined.

End SetupFacts.

(** ** The command hooks and the loggers *)

Module CliFacts.
Import Mach Logger Cli.

#[local] Open Scope nat_scope.
#[local] Open Scope string_scope.

(** What a run of [handleBeforeCommand] that returns has done, part by
    part. *)
Lemma before_returns c s p p' :
  handleBeforeCommand c s p = Next p' ->
  log p' =
    (if debug c then set_handler_level DEBUG else fun g => g)
      ((if String.eqb (logfile c) "" then fun g => g
        else replace_handler (logfile c)) (log p))
  /\ profiling p' = (profiling p || negb (String.eqb (cpuprofile c) ""))%bool
  /\ created p'
     = (created p ++ flagged (cpuprofile c) ++ flagged (logfile c))%list
  /\ (String.eqb (config c) "" = true -> loaded p' = loaded p).
Proof.
  unfold handleBeforeCommand, andthen, start_profile, load_config,
    open_logfile, set_debug, flagged.
  destruct (String.eqb (cpuprofile c) "");
    [ | destruct (create_err s (cpuprofile c)); [ discriminate | ];
        destruct (profile_err s); [ discriminate | ] ];
    (destruct (String.eqb (config c) "");
     [ | destruct (expand s (config c)); [ | discriminate ];
         destruct (load_err s _); [ discriminate | ] ]);
    (destruct (String.eqb (logfile c) "");
     [ | destruct (create_err s (logfile c)); [ discriminate | ] ]);
    destruct (debug c); cbn;
    intros H; injection H as <-; cbn;
    rewrite ?app_nil_r, ?orb_false_r, ?orb_true_r, <- ?app_assoc;
    repeat split; try reflexivity; try discriminate.
Qed.

Lemma nth_error_set_nth_same {A} (x : A) : forall l n y,
  nth_error l n = Some y -> nth_error (set_nth n x l) n = Some x.
Proof.
  induction l as [ | z l IH ]; intros [ | n ] y H; simpl in *;
    try discriminate; [ reflexivity | apply (IH n y H) ].
Qed.

Lemma nth_error_set_nth_other {A} (x : A) : forall l n m,
  n <> m -> nth_error (set_nth n x l) m = nth_error l m.
Proof.
  induction l as [ | z l IH ]; intros [ | n ] [ | m ] H; simpl;
    try reflexivity; try contradiction.
  apply IH. lia.
Qed.

Lemma nth_error_last {A} (l : list A) x :
  nth_error (l ++ [x]) (length l) = Some x.
Proof. rewrite nth_error_app2, Nat.sub_diag by lia. reflexivity. Qed.

Lemma nth_error_before {A} (l : list A) x n y :
  nth_error l n = Some y -> nth_error (l ++ [x]) n = Some y
                            /\ n <> length l.
Proof.
  intros H. assert (n < length l) by (apply nth_error_Some; congruence).
  rewrite nth_error_app1 by lia. split; [ exact H | lia ].
Qed.

(** Loggers hold their handler by reference.  After a run of
    [handleBeforeCommand] that returns, a logger made before it still
    writes where it wrote, with the format it had; [--debug] reaches it
    only when there is no [--logfile].  A logger made afterwards writes, with
    [--logfile], to that file through a handler that never had
    [logFormatter] set on it. *)
Theorem loggers_around_logfile c s p p' name name' h :
  handleBeforeCommand c s p = Next p' ->
  handler_of (log p) (New name (log p)) = Some h ->
  handler_of (log p') (New name (log p))
  = Some (if (debug c && String.eqb (logfile c) "")%bool
          then with_level DEBUG h else h)
  /\ handler_of (log p') (New name' (log p'))
     = Some (if String.eqb (logfile c) ""
             then (if debug c then with_level DEBUG h else h)
             else mkHandler (File (logfile c)) false
                            (if debug c then Some DEBUG else None)).
Proof.
  intros H Hh. apply before_returns in H. destruct H as (Hl & _).
  unfold handler_of, New in *. simpl in *. rewrite Hl. clear Hl.
  set (g := log p) in *.
  destruct (String.eqb (logfile c) "") eqn:El; destruct (debug c) eqn:Ed;
    simpl.
  - unfold set_handler_level. rewrite Hh. simpl.
    rewrite (nth_error_set_nth_same _ _ _ _ Hh). split; reflexivity.
  - split; exact Hh.
  - unfold set_handler_level, replace_handler. simpl.
    rewrite nth_error_last. simpl.
    destruct (nth_error_before (store g) (mkHandler (File (logfile c)) false None) _ _ Hh)
      as [Hb Hne].
    split.
    + rewrite nth_error_set_nth_other by lia. exact Hb.
    + apply (nth_error_set_nth_same _ _ _ _ (nth_error_last _ _)).
  - unfold replace_handler. simpl.
    destruct (nth_error_before (store g) (mkHandler (File (logfile c)) false None) _ _ Hh)
      as [Hb _].
    split; [ exact Hb | apply nth_error_last ].
Qed.

Lemma loggers_around_logfile_witness :
  exists p',
    handleBeforeCommand all_flags fine boot = Next p'
    /\ handler_of (log boot) (New "torrent" (log boot))
       = Some (mkHandler Stderr true None)
    /\ handler_of (log p') (New "torrent" (log boot))
       = Some (mkHandler Stderr true None)
    /\ handler_of (log p') (New "peer" (log p'))
       = Some (mkHandler (File "rain.log") false (Some DEBUG)).
Proof.
  eexists. split; [ reflexivity | ]. split; [ reflexivity | ].
  exact (loggers_around_logfile all_flags fine boot _ "torrent" "peer"
           (mkHandler Stderr true None) eq_refl eq_refl).
Defined.

(** The CPU profile is paired: when [handleBeforeCommand] returns in a
    process that was not profiling, a profile is being written exactly when
    [--cpuprofile] was given, and [handleAfterCommand] then leaves no
    profile running and changes nothing else. *)
Theorem profile_is_paired c s p p' :
  handleBeforeCommand c s p = Next p' ->
  profiling p = false ->
  profiling p' = negb (String.eqb (cpuprofile c) "")
  /\ profiling (handleAfterCommand c p') = false
  /\ log (handleAfterCommand c p') = log p'
  /\ created (handleAfterCommand c p') = created p'
  /\ loaded (handleAfterCommand c p') = loaded p'.
Proof.
  intros H Hp. apply before_returns in H. destruct H as (_ & Hpr & _).
  rewrite Hp in Hpr. simpl in Hpr.
  unfold handleAfterCommand.
  destruct (String.eqb (cpuprofile c) ""); simpl in *;
    repeat split; assumption.
Qed.

Lemma profile_is_paired_witness :
  exists p',
    handleBeforeCommand all_flags fine boot = Next p'
    /\ profiling boot = false
    /\ profiling p' = true
    /\ profiling (handleAfterCommand all_flags p') = false
    /\ log (handleAfterCommand all_flags p') = log p'
    /\ created (handleAfterCommand all_flags p') = created p'
    /\ loaded (handleAfterCommand all_flags p') = loaded p'.
Proof.
  eexists. split; [ reflexivity | ]. split; [ reflexivity | ].
  exact (profile_is_paired all_flags fine boot _ eq_refl eq_refl).
Defined.

(** [handleBeforeCommand] makes only the files its flags name: when it
    returns, the files created are the CPU profile and then the log file,
    each only if its flag is set, and no configuration is loaded without
    [--config]. *)
Theorem before_creates_flagged c s p p' :
  handleBeforeCommand c s p = Next p' ->
  created p'
     = (created p ++ flagged (cpuprofile c) ++ flagged (logfile c))%list
  /\ (String.eqb (config c) "" = true -> loaded p' = loaded p).
Proof.
  intros H. apply before_returns in H. tauto.
Qed.

Lemma before_creates_flagged_witness :
  exists p',
    handleBeforeCommand all_flags fine boot = Next p'
    /\ created p' = ["cpu.prof"; "rain.log"]
    /\ (String.eqb (config all_flags) "" = true -> loaded p' = loaded boot).
Proof.
  eexists. split; [ reflexivity | ].
  exact (before_creates_flagged all_flags fine boot _ eq_refl).
Defined.

End CliFacts.

(** ** The log line *)

Module LogFormatFacts.
Import Mach LogFormat.

#[local] Open Scope nat_scope.
#[local] Open Scope string_scope.

Lemma length_append a : forall b,
  String.length (a ++ b) = String.length a + String.length b.
Proof. induction a as [ | c a IH ]; intros b; simpl; [ | rewrite IH ]; reflexivity. Qed.

Lemma append_assoc a : forall b c, (a ++ b) ++ c = a ++ (b ++ c).
Proof. induction a as [ | x a IH ]; intros b c; simpl; [ | rewrite IH ]; reflexivity. Qed.

Lemma length_spaces n : String.length (spaces n) = n.
Proof. induction n; simpl; congruence. Qed.

Lemma length_substring0 n : forall s,
  n <= String.length s -> String.length (substring 0 n s) = n.
Proof.
  induction n as [ | n IH ]; intros s H.
  - destruct s; reflexivity.
  - destruct s as [ | c s ]; simpl in *; [ lia | ].
    rewrite IH by lia. reflexivity.
Qed.

Lemma count_runes_ascii l : forall fuel,
  length l <= fuel ->
  forallb (fun c => (c <? 0x80)%Z) l = true ->
  count_runes fuel l = length l.
Proof.
  induction l as [ | c r IH ]; intros fuel Hf Ha.
  - destruct fuel; reflexivity.
  - destruct fuel as [ | f ]; simpl in *; [ lia | ].
    apply andb_prop in Ha. destruct Ha as [Hc Hr].
    unfold rune_size. rewrite Hc. simpl. rewrite IH by (assumption || lia).
    reflexivity.
Qed.

Lemma codes_length s : length (codes s) = String.length s.
Proof.
  unfold codes. rewrite length_map.
  induction s as [ | c s IH ]; simpl; congruence.
Qed.

Lemma RuneCount_ascii s :
  ascii_only s = true -> RuneCountInString s = String.length s.
Proof.
  intros H. unfold RuneCountInString.
  rewrite count_runes_ascii; [ apply codes_length | | exact H ].
  rewrite codes_length. lia.
Qed.

(** The columns of a log line.  For a record whose time prints in at least
    19 bytes and whose level name is at most 8 bytes of ASCII, [Format]
    returns a line that begins with the first 19 bytes of the time, a
    space, and the level name filled with spaces to 8 columns, so that the
    bracket of the logger name always stands after 29 bytes; the line then
    holds the logger name in brackets, the base name of the file with the
    line number, and the message as its end. *)
Theorem Format_columns rec :
  19 <= String.length (Time rec) ->
  ascii_only (Level rec) = true ->
  String.length (Level rec) <= 8 ->
  exists head,
    head = substring 0 19 (Time rec) ++ " " ++ Level rec
           ++ spaces (8 - String.length (Level rec)) ++ " "
    /\ String.length head = 29
    /\ Format rec
       = Return (head ++ "[" ++ LoggerName rec ++ "] "
                 ++ pad8 (Base (Filename rec) ++ ":" ++ Itoa (Line rec))
                 ++ " " ++ Message rec).
Proof.
  intros Ht Ha Hl. eexists. split; [ reflexivity | ]. split.
  - rewrite !length_append, length_spaces.
    rewrite (length_substring0 19 (Time rec) Ht).
    change (String.length " ") with 1. lia.
  - unfold Format.
    replace (String.length (Time rec) <? 19)%nat with false
      by (symmetry; apply Nat.ltb_ge; exact Ht).
    unfold pad8 at 1. rewrite (RuneCount_ascii _ Ha).
    rewrite !append_assoc. reflexivity.
Qed.

Lemma Format_columns_witness :
  19 <= String.length (Time example)
  /\ ascii_only (Level example) = true
  /\ String.length (Level example) <= 8
  /\ exists head,
       head = substring 0 19 (Time example) ++ " " ++ Level example
              ++ spaces (8 - String.length (Level example)) ++ " "
       /\ String.length head = 29
       /\ Format example
          = Return (head ++ "[" ++ LoggerName example ++ "] "
                    ++ pad8 (Base (Filename example) ++ ":"
                             ++ Itoa (Line example))
                    ++ " " ++ Message example).
Proof.
  split; [ vm_compute; lia | ]. split; [ reflexivity | ].
  split; [ vm_compute; lia | ].
  apply (Format_columns example);
    [ vm_compute; lia | reflexivity | vm_compute; lia ].
Defined.

(** The line of the example record: the level stands before the logger
    name, and the file and line before the message. *)
Example Format_example :
  Format example
  = Return
      "2014-02-28 18:15:57 INFO     [example] run.go:42 something happened".
Proof. reflexivity. Qed.

(** A time that prints in fewer than 19 bytes makes [Format] panic. *)
Example Format_short_time :
  Format (mkRecord "18:15:57" "INFO" "example" "run.go" 42 "x")
  = Panic "slice bounds out of range".
Proof. reflexivity. Qed.

End LogFormatFacts.
